(** * sudachi_tokenize: a shallow embedding of [scripts/sudachi_tokenize.py]

    The script reads text from standard input, tokenizes it with SudachiPy
    and prints the morphemes as one line of JSON.  The development models

    - Python [str] values as sequences of Unicode code points,
    - [str.strip] and the truth value of a [str],
    - the part of [json.dumps(..., ensure_ascii=False)] the script reaches,
    - the [argparse] parser that [parse_args] builds,
    - the SudachiPy objects as an external library handed to the script,
    - the script's observable behaviour as a trace of events and a final
      process status.

    Conventions.  A Python [str] is a [list N] of code points; [lit] turns
    an ASCII literal of the source into such a list.  The standard streams
    are modelled at the level of text (what is handed to [write]); the byte
    encoding chosen by the runtime for a stream is not part of the script.
    The events of a run are the stream operations and the three calls that
    build and run the tokenizer; the accessor calls on the morphemes that
    [tokenize] returns are taken to return their values. *)

From Stdlib Require Import List NArith Bool Ascii String Lia.
Import ListNotations.

Set Warnings "-register-all".
Set Implicit Arguments.

Local Open Scope N_scope.
Local Open Scope list_scope.

(* ================================================================= *)
(** ** Python strings *)

Module PyStr.

Definition pystr : Type := list N.

(** An ASCII literal of the source as a Python [str]. *)
Definition lit (s : string) : pystr :=
  map N_of_ascii (list_ascii_of_string s).

Fixpoint eqb (a b : pystr) : bool :=
  match a, b with
  | [], [] => true
  | x :: a', y :: b' => (x =? y) && eqb a' b'
  | _, _ => false
  end.

(** [a.startswith(p)] *)
Fixpoint startswith (a p : pystr) : bool :=
  match p, a with
  | [], _ => true
  | y :: p', x :: a' => (x =? y) && startswith a' p'
  | _ :: _, [] => false
  end.

(** [c in s] for a single character [c] *)
Definition contains (c : N) (s : pystr) : bool := existsb (N.eqb c) s.

(** [s.split(c, 1)] when [c in s]: the text before the first [c] and the
    text after it. *)
Fixpoint split1 (c : N) (s : pystr) : option (pystr * pystr) :=
  match s with
  | [] => None
  | x :: s' =>
      if x =? c then Some ([], s')
      else match split1 c s' with
           | Some (l, r) => Some (x :: l, r)
           | None => None
           end
  end.

(** [sep.join(l)] *)
Fixpoint join (sep : pystr) (l : list pystr) : pystr :=
  match l with
  | [] => []
  | x :: t => match t with
              | [] => x
              | _ :: _ => x ++ sep ++ join sep t
              end
  end.

(** [Py_UNICODE_ISSPACE]: the code points [str.isspace] holds of, which
    are the ones [str.strip()] removes. *)
Definition isspace (c : N) : bool :=
  ((0x09 <=? c) && (c <=? 0x0D))
  || ((0x1C <=? c) && (c <=? 0x20))
  || (c =? 0x85) || (c =? 0xA0) || (c =? 0x1680)
  || ((0x2000 <=? c) && (c <=? 0x200A))
  || (c =? 0x2028) || (c =? 0x2029) || (c =? 0x202F)
  || (c =? 0x205F) || (c =? 0x3000).

Fixpoint lstrip (s : pystr) : pystr :=
  match s with
  | [] => []
  | c :: s' => if isspace c then lstrip s' else s
  end.

Definition rstrip (s : pystr) : pystr := rev (lstrip (rev s)).

(** [s.strip()] *)
Definition strip (s : pystr) : pystr := rstrip (lstrip s).

(** The truth value of a [str]: the empty string is false. *)
Definition truthy (s : pystr) : bool :=
  match s with [] => false | _ :: _ => true end.

(** Every character of [s] is whitespace (this holds of the empty text). *)
Definition whitespace_only (s : pystr) : bool := forallb isspace s.

Definition is_ascii (c : N) : bool := c <? 0x80.

End PyStr.
Export PyStr.

(* ================================================================= *)
(** ** json.dumps with ensure_ascii=False *)

Module Json.

(** The Python values that reach [json.dumps] in the script, with the
    constants [None], [True] and [False] so that "array", "object" and
    "scalar" are distinct notions.  A [dict] keeps its insertion order. *)
Inductive pyval : Type :=
| PNone
| PBool (b : bool)
| PStr (s : pystr)
| PList (l : list pyval)
| PDict (items : list (pystr * pyval)).

Definition hex_digit (n : N) : N :=
  if n <? 10 then 48 + n else 87 + n.

(** ['\\u{0:04x}'.format(i)] *)
Definition u_escape (i : N) : pystr :=
  [92; 117; hex_digit ((i / 4096) mod 16); hex_digit ((i / 256) mod 16);
   hex_digit ((i / 16) mod 16); hex_digit (i mod 16)].

(** [ESCAPE_DCT]: the seven named entries, then [setdefault] for every
    code point below [0x20]. *)
Definition ESCAPE_DCT (c : N) : option pystr :=
  if c =? 92 then Some [92; 92]            (* backslash *)
  else if c =? 34 then Some [92; 34]       (* double quote *)
  else if c =? 8 then Some [92; 98]        (* \b *)
  else if c =? 12 then Some [92; 102]      (* \f *)
  else if c =? 10 then Some [92; 110]      (* \n *)
  else if c =? 13 then Some [92; 114]      (* \r *)
  else if c =? 9 then Some [92; 116]       (* \t *)
  else if c <? 0x20 then Some (u_escape c)
  else None.

(** The character class of the regular expression [ESCAPE]. *)
Definition ESCAPE (c : N) : bool :=
  (c <=? 0x1f) || (c =? 92) || (c =? 34)
  || (c =? 8) || (c =? 12) || (c =? 10) || (c =? 13) || (c =? 9).

(** [ESCAPE.sub(replace, s)] on one character. *)
Definition replace (c : N) : pystr :=
  if ESCAPE c then match ESCAPE_DCT c with Some r => r | None => [c] end
  else [c].

Definition py_encode_basestring (s : pystr) : pystr :=
  [34] ++ flat_map replace s ++ [34].

Definition item_separator : pystr := lit ", ".
Definition key_separator : pystr := lit ": ".

(** [json.dumps(v, ensure_ascii=False)] with the default separators. *)
Fixpoint dumps (v : pyval) : pystr :=
  match v with
  | PNone => lit "null"
  | PBool true => lit "true"
  | PBool false => lit "false"
  | PStr s => py_encode_basestring s
  | PList l => lit "[" ++ join item_separator (map dumps l) ++ lit "]"
  | PDict items =>
      lit "{"
      ++ join item_separator
           (map (fun kv => py_encode_basestring (fst kv)
                           ++ key_separator ++ dumps (snd kv)) items)
      ++ lit "}"
  end.

End Json.
Export Json.

(* ================================================================= *)
(** ** The argument parser built by [parse_args]

    [parse_args] builds an [argparse.ArgumentParser] with the default
    [-h]/[--help] action and two [store] options, [--mode] (choices
    [A], [B], [C], default [C]) and [--config] (default [None]), and calls
    [parser.parse_args()].  The definitions below follow the standard
    [argparse] module of CPython 3.11 for that parser, in the order of
    [ArgumentParser._parse_known_args]: every argument string is
    classified first, then options are consumed from left to right.  The
    value of a [store] option is the argument string it was given, with
    one exception that [_get_values] makes: it removes the string [--]
    from the argument strings of an action, so the explicit value of
    [--opt=--] leaves no string and the value stored is the empty list,
    which is not checked against the choices. *)

Module Argparse.

Inductive action : Type :=
| HelpAction      (* -h, --help: nargs=0 *)
| StoreMode       (* --mode: nargs=None, choices=("A","B","C"), default="C" *)
| StoreConfig.    (* --config: nargs=None, default=None *)

(** [parser._option_string_actions], in insertion order. *)
Definition option_string_actions : list (pystr * action) :=
  [ (lit "-h", HelpAction); (lit "--help", HelpAction);
    (lit "--mode", StoreMode); (lit "--config", StoreConfig) ].

Fixpoint lookup (s : pystr) (tbl : list (pystr * action)) : option action :=
  match tbl with
  | [] => None
  | (k, a) :: tbl' => if PyStr.eqb s k then Some a else lookup s tbl'
  end.

(** [choices=("A", "B", "C")] *)
Definition mode_choices : list pystr := [lit "A"; lit "B"; lit "C"].

Definition in_choices (v : pystr) (choices : list pystr) : bool :=
  existsb (PyStr.eqb v) choices.

(** What a [store] action puts into the namespace: the argument string
    or, when [_get_values] was left without a string, the empty list. *)
Inductive argvalue : Type :=
| Str (s : pystr)
| EmptyList.

(** [argparse.Namespace] with the two destinations of the parser;
    [config] is [None] until the option is given. *)
Record Namespace : Type := mkNamespace {
  mode : argvalue;
  config : option argvalue
}.

(** The namespace holding the defaults of the two options. *)
Definition defaults : Namespace :=
  {| mode := Str (lit "C"); config := None |}.

(** The errors [parser.error] is called with. *)
Inductive ArgumentError : Type :=
| AmbiguousOption (arg : pystr) (matches : list pystr)
| ExpectedOneArgument (a : action)
| IgnoredExplicitArgument (a : action) (explicit_arg : pystr)
| InvalidChoice (a : action) (value : pystr)
| UnrecognizedArguments (extras : list pystr).

(** What [parser.parse_args()] does: return a namespace, print the help
    and exit with status 0, or report an error and exit with status 2. *)
Inductive parse_result : Type :=
| Parsed (ns : Namespace)
| ExitHelp
| ExitError (e : ArgumentError).

(** An argument string after classification: ['A'], ['-'] or ['O'] with
    its option tuple [(action, option_string, explicit_arg)]. *)
Inductive carg : Type :=
| CA (s : pystr)
| CSep (s : pystr)
| CO (s : pystr) (act : option action) (option_string : pystr)
     (explicit_arg : option pystr).

Definition dash : N := 45.
Definition equals : N := 61.
Definition space : N := 32.

Definition option_tuple : Type := (action * pystr * option pystr)%type.

(** [_get_option_tuples]: the options an abbreviated or concatenated
    option string can stand for.  It is only called on strings of at least
    two characters that start with the prefix character. *)
Definition _get_option_tuples (option_string : pystr) : list option_tuple :=
  match option_string with
  | c0 :: c1 :: _ =>
      if (c0 =? dash) && (c1 =? dash) then
        let '(option_prefix, explicit_arg) :=
          match split1 equals option_string with
          | Some (p, e) => (p, Some e)
          | None => (option_string, None)
          end in
        flat_map (fun oa : pystr * action =>
                    if startswith (fst oa) option_prefix
                    then [(snd oa, fst oa, explicit_arg)] else [])
                 option_string_actions
      else if c0 =? dash then
        let short_option_prefix := firstn 2 option_string in
        let short_explicit_arg := skipn 2 option_string in
        flat_map (fun oa : pystr * action =>
                    if PyStr.eqb (fst oa) short_option_prefix
                    then [(snd oa, fst oa, Some short_explicit_arg)]
                    else if startswith (fst oa) option_string
                    then [(snd oa, fst oa, None)] else [])
                 option_string_actions
      else []
  | _ => []
  end.

Section Parser.

(** [parser._negative_number_matcher.match]: whether a string looks like
    a negative number.  The parser has no option that looks like one, so
    such a string is an argument. *)
Variable negative_number_matcher : pystr -> bool.

(** [_parse_optional]: [inr] of the class of one argument string, or
    [inl] of the error raised for an ambiguous abbreviation. *)
Definition _parse_optional (arg_string : pystr) : ArgumentError + carg :=
  match arg_string with
  | [] => inr (CA arg_string)
  | c0 :: rest =>
      if negb (c0 =? dash) then inr (CA arg_string)
      else
        match lookup arg_string option_string_actions with
        | Some a => inr (CO arg_string (Some a) arg_string None)
        | None =>
            match rest with
            | [] => inr (CA arg_string)
            | _ :: _ =>
                let by_equals :=
                  match split1 equals arg_string with
                  | Some (option_string, explicit_arg) =>
                      match lookup option_string option_string_actions with
                      | Some a => Some (CO arg_string (Some a) option_string
                                           (Some explicit_arg))
                      | None => None
                      end
                  | None => None
                  end in
                match by_equals with
                | Some c => inr c
                | None =>
                    match _get_option_tuples arg_string with
                    | (a, os, e) :: [] => inr (CO arg_string (Some a) os e)
                    | (_ :: _ :: _) as tuples =>
                        inl (AmbiguousOption arg_string
                               (map (fun t : option_tuple => snd (fst t)) tuples))
                    | [] =>
                        if negative_number_matcher arg_string
                        then inr (CA arg_string)
                        else if contains space arg_string
                        then inr (CA arg_string)
                        else inr (CO arg_string None arg_string None)
                    end
                end
            end
        end
  end.

(** The first loop of [_parse_known_args]: everything after [--] is an
    argument, [--] itself is the separator. *)
Fixpoint classify (arg_strings : list pystr) : ArgumentError + list carg :=
  match arg_strings with
  | [] => inr []
  | s :: rest =>
      if PyStr.eqb s (lit "--") then inr (CSep s :: map CA rest)
      else match _parse_optional s with
           | inl e => inl e
           | inr c => match classify rest with
                      | inl e => inl e
                      | inr cs => inr (c :: cs)
                      end
           end
  end.

End Parser.

(** The number of arguments [_match_argument(action, 'A')] matches. *)
Definition nargs (a : action) : N :=
  match a with HelpAction => 0 | StoreMode | StoreConfig => 1 end.

(** The [choices] of an action, [None] when it has none. *)
Definition choices_of (a : action) : option (list pystr) :=
  match a with
  | StoreMode => Some mode_choices
  | HelpAction | StoreConfig => None
  end.

(** [_get_values(action, [arg_string])] for an action with [nargs=None]:
    [arg_strings.remove('--')] comes first; the one string that is left is
    the value and is checked against the choices ([_check_value]); when
    the string was [--] none is left, and the value is the list of the
    converted strings, which is empty and passes no check. *)
Definition _get_values (a : action) (arg_string : pystr)
  : ArgumentError + argvalue :=
  if PyStr.eqb arg_string (lit "--") then inr EmptyList
  else
    match choices_of a with
    | Some choices =>
        if in_choices arg_string choices then inr (Str arg_string)
        else inl (InvalidChoice a arg_string)
    | None => inr (Str arg_string)
    end.

(** [take_action] for one action tuple: [inl] when the parser exits.  A
    [store] action is always handed one argument string. *)
Definition take_action (a : action) (args : list pystr) (ns : Namespace)
  : parse_result + Namespace :=
  match a with
  | HelpAction => inl ExitHelp
  | StoreMode =>
      match args with
      | [v] =>
          match _get_values StoreMode v with
          | inl e => inl (ExitError e)
          | inr value => inr {| mode := value; config := config ns |}
          end
      | _ => inr ns
      end
  | StoreConfig =>
      match args with
      | [v] =>
          match _get_values StoreConfig v with
          | inl e => inl (ExitError e)
          | inr value => inr {| mode := mode ns; config := Some value |}
          end
      | _ => inr ns
      end
  end.

Fixpoint take_actions (tuples : list (action * list pystr)) (ns : Namespace)
  : parse_result + Namespace :=
  match tuples with
  | [] => inr ns
  | (a, args) :: tuples' =>
      match take_action a args ns with
      | inl r => inl r
      | inr ns' => take_actions tuples' ns'
      end
  end.

(** The outcome of the [while True] loop of [consume_optional] when the
    option string carries an explicit argument. *)
Inductive explicit_outcome : Type :=
| ExplicitError (e : ArgumentError)
| ExplicitDone (tuples : list (action * list pystr))
| ExplicitPending (tuples : list (action * list pystr)) (a : action).

(** The loop of [consume_optional] on [(action, option_string,
    explicit_arg)] with [explicit_arg] not [None]; [tuples] is
    [action_tuples] so far.  A single-dash option without arguments hands
    the rest of the string on to the next single-dash option. *)
Fixpoint consume_explicit (a : action) (option_string : pystr)
    (explicit_arg : pystr) (tuples : list (action * list pystr))
  : explicit_outcome :=
  let single_dash :=
    match option_string with
    | _ :: c1 :: _ => negb (c1 =? dash)
    | _ => false
    end in
  match explicit_arg with
  | c :: tail =>
      if (nargs a =? 0) && single_dash then
        match lookup [dash; c] option_string_actions with
        | Some a' =>
            match tail with
            | [] => ExplicitPending (tuples ++ [(a, [])]) a'
            | _ :: _ => consume_explicit a' [dash; c] tail (tuples ++ [(a, [])])
            end
        | None => ExplicitError (IgnoredExplicitArgument a explicit_arg)
        end
      else if nargs a =? 1 then ExplicitDone (tuples ++ [(a, [explicit_arg])])
      else ExplicitError (IgnoredExplicitArgument a explicit_arg)
  | [] =>
      if nargs a =? 1 then ExplicitDone (tuples ++ [(a, [explicit_arg])])
      else ExplicitError (IgnoredExplicitArgument a explicit_arg)
  end.

(** The second loop of [_parse_known_args] for a parser without
    positional arguments: arguments that no option takes are collected in
    [extras]; an option is consumed with the arguments that follow it. *)
Fixpoint consume (l : list carg) (ns : Namespace) (extras : list pystr)
  : parse_result :=
  let no_explicit (a : action) (tuples : list (action * list pystr))
                  (l' : list carg) : parse_result :=
    match nargs a with
    | 0 =>
        match take_actions (tuples ++ [(a, [])]) ns with
        | inl r => r
        | inr ns' => consume l' ns' extras
        end
    | _ =>
        match l' with
        | CA v :: l'' =>
            match take_actions (tuples ++ [(a, [v])]) ns with
            | inl r => r
            | inr ns' => consume l'' ns' extras
            end
        | _ => ExitError (ExpectedOneArgument a)
        end
    end in
  match l with
  | [] =>
      match extras with
      | [] => Parsed ns
      | _ :: _ => ExitError (UnrecognizedArguments extras)
      end
  | CA s :: l' => consume l' ns (extras ++ [s])
  | CSep s :: l' => consume l' ns (extras ++ [s])
  | CO s None _ _ :: l' => consume l' ns (extras ++ [s])
  | CO s (Some a) option_string None :: l' => no_explicit a [] l'
  | CO s (Some a) option_string (Some explicit_arg) :: l' =>
      match consume_explicit a option_string explicit_arg [] with
      | ExplicitError e => ExitError e
      | ExplicitDone tuples =>
          match take_actions tuples ns with
          | inl r => r
          | inr ns' => consume l' ns' extras
          end
      | ExplicitPending tuples a' => no_explicit a' tuples l'
      end
  end.

(** [parser.parse_args()] on [sys.argv[1:]]. *)
Definition parser_parse_args (negative_number_matcher : pystr -> bool)
    (argv : list pystr) : parse_result :=
  match classify negative_number_matcher argv with
  | inl e => ExitError e
  | inr cs => consume cs defaults []
  end.

(** The argument was taken for the [--mode] option. *)
Definition mentions_mode (c : carg) : bool :=
  match c with
  | CO _ (Some StoreMode) _ _ => true
  | _ => false
  end.

Definition not_mode (a : action) : bool :=
  match a with StoreMode => false | _ => true end.

(** The actions of a classified argument, of an action tuple, all
    satisfy [ok]. *)
Definition carg_ok (ok : action -> bool) (c : carg) : bool :=
  match c with
  | CO _ (Some a) _ _ => ok a
  | _ => true
  end.

Definition tuple_ok (ok : action -> bool) (t : action * list pystr) : bool :=
  ok (fst t).

(** The argument strings that the actions other than the help are
    handed all satisfy [okv]. *)
Definition is_help_action (a : action) : bool :=
  match a with HelpAction => true | StoreMode | StoreConfig => false end.

Definition carg_values_ok (okv : pystr -> bool) (c : carg) : bool :=
  match c with
  | CA s => okv s
  | CO _ (Some a) _ (Some e) => is_help_action a || okv e
  | _ => true
  end.

Definition tuple_values_ok (okv : pystr -> bool) (t : action * list pystr)
  : bool :=
  is_help_action (fst t) || forallb okv (snd t).

Definition not_double_dash (v : pystr) : bool := negb (PyStr.eqb v (lit "--")).

(** The [mode] of a namespace is one of the choices, or the empty list
    that the explicit value [--] leaves. *)
Definition mode_ok (ns : Namespace) : Prop :=
  match mode ns with
  | Str v => in_choices v mode_choices = true
  | EmptyList => True
  end.

(** Both values of a namespace went through the parser's conversion and
    check: the mode is a string among the choices, the configuration is
    absent or a string. *)
Definition values_checked (ns : Namespace) : Prop :=
  (exists v, mode ns = Str v /\ in_choices v mode_choices = true)
  /\ config ns <> Some EmptyList.

(** Two results of the parser agree: the same exit, or two namespaces
    related by [R]. *)
Definition result_rel (R : Namespace -> Namespace -> Prop)
    (r1 r2 : parse_result) : Prop :=
  match r1, r2 with
  | Parsed m1, Parsed m2 => R m1 m2
  | _, _ => r1 = r2 /\ forall ns, r1 <> Parsed ns
  end.

(** Every action keeps two namespaces related by [R] related, and exits
    alike on both. *)
Definition action_rel (R : Namespace -> Namespace -> Prop) : Prop :=
  forall a args n1 n2, R n1 n2 ->
    match take_action a args n1, take_action a args n2 with
    | inr m1, inr m2 => R m1 m2
    | inl r1, inl r2 => r1 = r2
    | _, _ => False
    end.

End Argparse.

(* ================================================================= *)
(** ** The script *)

Module SplitMode.
(** [tokenizer.Tokenizer.SplitMode]: the three split-mode constants. *)
Inductive t : Type := A | B | C.
End SplitMode.

Module Script.
Import Argparse.

(** The exceptions the model distinguishes.  [ImportError] stands for the
    class and its subclasses, which is what [except ImportError] catches. *)
Inductive PyExn : Type :=
| ImportError
| AttributeError
| TypeError
| OtherError (name : pystr).

Definition is_ImportError (e : PyExn) : bool :=
  match e with ImportError => true | _ => false end.

(** What the accessors of one SudachiPy morpheme return.  The five
    accessor calls of the loop are taken to return these values: they are
    no events of a run and have no path that raises. *)
Record Morpheme : Type := mkMorpheme {
  surface : pystr;
  dictionary_form : pystr;
  reading_form : pystr;
  part_of_speech : list pystr;
  normalized_form : pystr
}.

(** Keyword arguments of a call, in insertion order. *)
Definition kwargs : Type := list (pystr * pystr).

(** The names the script uses of the [sudachipy] package: the
    [dictionary.Dictionary] constructor, [create] on a dictionary and
    [tokenize] on a tokenizer object.  Each call returns or raises. *)
Record Sudachi : Type := mkSudachi {
  Dict : Type;
  Tok : Type;
  Dictionary : kwargs -> PyExn + Dict;
  create : Dict -> PyExn + Tok;
  tokenize : Tok -> pystr -> SplitMode.t -> PyExn + list Morpheme
}.

(** What the interpreter and [argparse] contribute and the script does not
    fix: the program name, the usage and help texts, the wording of error
    messages and the negative-number matcher of the parser. *)
Record Platform : Type := mkPlatform {
  prog : pystr;
  format_usage : pystr;
  format_help : pystr;
  error_message : ArgumentError -> pystr;
  negative_number_matcher : pystr -> bool
}.

(** Observable events of a run, in program order. *)
Inductive event : Type :=
| StdoutWrite (s : pystr)
| StderrWrite (s : pystr)
| StdinRead
| CallDictionary (args : kwargs)
| CallCreate
| CallTokenize (text : pystr) (split_mode : SplitMode.t).

(** How the process ends: [sys.exit(code)] or falling off the end of the
    script ([Exit 0]), or an exception nobody catches, which the
    interpreter reports itself. *)
Inductive status : Type :=
| Exit (code : N)
| Uncaught (e : PyExn).

Definition trace : Type := list event.

(** Computations of the script: the events so far and either the status
    the process ended with or a value. *)
Definition Prog (X : Type) : Type := (trace * (status + X))%type.

Definition ret {X} (x : X) : Prog X := ([], inr x).

Definition bind {X Y} (m : Prog X) (k : X -> Prog Y) : Prog Y :=
  match m with
  | (t, inl s) => (t, inl s)
  | (t, inr x) => let '(t', r) := k x in (t ++ t', r)
  end.

Declare Scope prog_scope.
Delimit Scope prog_scope with prog.
Notation "x <- m ;; k" := (bind m (fun x => k))
  (at level 61, m at next level, right associativity) : prog_scope.
Notation "m ;; k" := (bind m (fun _ => k))
  (at level 61, right associativity) : prog_scope.
Local Open Scope prog_scope.

Definition emit (e : event) : Prog unit := ([e], inr tt).

(** [sys.exit(code)] *)
Definition sys_exit {X} (code : N) : Prog X := ([], inl (Exit code)).

(** A call into the library: the event, then its value or the exception,
    which the script never catches. *)
Definition call {X} (e : event) (r : PyExn + X) : Prog X :=
  match r with
  | inl ex => ([e], inl (Uncaught ex))
  | inr x => ([e], inr x)
  end.

(** An expression of the script that may raise. *)
Definition eval {X} (r : PyExn + X) : Prog X :=
  match r with
  | inl ex => ([], inl (Uncaught ex))
  | inr x => ([], inr x)
  end.

(** [print(s)]: writes [s], then the line end. *)
Definition print (s : pystr) : Prog unit :=
  emit (StdoutWrite s) ;; emit (StdoutWrite [10]).

(** [sys.stdin.read()] *)
Definition stdin_read (stdin : pystr) : Prog pystr :=
  emit StdinRead ;; ret stdin.

(** [parser._print_message(message, file)] *)
Definition _print_message (message : pystr) (file : pystr -> event)
  : Prog unit :=
  if truthy message then emit (file message) else ret tt.

(** [parser.exit(status, message)] *)
Definition parser_exit {X} (code : N) (message : pystr) : Prog X :=
  _print_message message StderrWrite ;; sys_exit code.

(** [parser.error(message)] *)
Definition parser_error {X} (pf : Platform) (message : pystr) : Prog X :=
  _print_message (format_usage pf) StderrWrite ;;
  parser_exit 2 (prog pf ++ lit ": error: " ++ message ++ [10]).

(** [parse_args()] of the script. *)
Definition parse_args (pf : Platform) (argv : list pystr) : Prog Namespace :=
  match parser_parse_args (negative_number_matcher pf) argv with
  | Parsed ns => ret ns
  | ExitHelp => _print_message (format_help pf) StdoutWrite ;; parser_exit 0 []
  | ExitError e => parser_error pf (error_message pf e)
  end.

(** [getattr(tokenizer.Tokenizer.SplitMode, name)] for the names the
    enumeration defines; a [name] that is not a string is a
    [TypeError]. *)
Definition getattr_SplitMode (name : argvalue) : PyExn + SplitMode.t :=
  match name with
  | Str name =>
      if PyStr.eqb name (lit "A") then inr SplitMode.A
      else if PyStr.eqb name (lit "B") then inr SplitMode.B
      else if PyStr.eqb name (lit "C") then inr SplitMode.C
      else inl AttributeError
  | EmptyList => inl TypeError
  end.

(** The [dict] appended to [payload] for one morpheme. *)
Definition morpheme_entry (morpheme : Morpheme) : pyval :=
  PDict [ (lit "surface", PStr (surface morpheme));
          (lit "dictionaryForm", PStr (dictionary_form morpheme));
          (lit "reading", PStr (reading_form morpheme));
          (lit "partOfSpeech", PList (map PStr (part_of_speech morpheme)));
          (lit "normalizedForm", PStr (normalized_form morpheme)) ].

(** The [for] loop of [main]: [payload.append] once per morpheme. *)
Definition build_payload (morphemes : list Morpheme) : list pyval :=
  fold_left (fun payload morpheme => payload ++ [morpheme_entry morpheme])
            morphemes [].

(** [dict_args] after the test [if args.config:]. *)
Definition dict_args_of (args : Namespace) : kwargs :=
  match config args with
  | Some (Str c) => if truthy c then [(lit "config_path", c)] else []
  | Some EmptyList => []
  | None => []
  end.

(** The body of [main] after [parse_args()]. *)
Definition main_body (lib : Sudachi) (args : Namespace) (stdin : pystr)
  : Prog unit :=
  raw_text <- stdin_read stdin ;;
  let text := strip raw_text in
  if negb (truthy text) then print (lit "[]")
  else
    let dict_args := dict_args_of args in
    d <- call (CallDictionary dict_args) (Dictionary lib dict_args) ;;
    tokenizer_obj <- call CallCreate (create lib d) ;;
    split_mode <- eval (getattr_SplitMode (mode args)) ;;
    morphemes <- call (CallTokenize text split_mode)
                      (tokenize lib tokenizer_obj text split_mode) ;;
    let payload := build_payload morphemes in
    print (dumps (PList payload)).

Definition main (pf : Platform) (lib : Sudachi) (argv : list pystr)
    (stdin : pystr) : Prog unit :=
  args <- parse_args pf argv ;;
  main_body lib args stdin.

Definition missing_dependency_message : pystr :=
  lit "SudachiPy is not installed. Run pnpm run sudachi:setup before using this script."
  ++ [10].

(** The end of the script is reached: the process ends with status 0. *)
Definition finish (p : Prog unit) : trace * status :=
  match p with
  | (t, inl s) => (t, s)
  | (t, inr _) => (t, Exit 0)
  end.

(** The whole script: the guarded import, then [main()].  [sudachipy] is
    what [from sudachipy import dictionary, tokenizer] evaluates to. *)
Definition script (pf : Platform) (sudachipy : PyExn + Sudachi)
    (argv : list pystr) (stdin : pystr) : trace * status :=
  match sudachipy with
  | inl e =>
      if is_ImportError e
      then ([StderrWrite missing_dependency_message], Exit 1)
      else ([], Uncaught e)
  | inr lib => finish (main pf lib argv stdin)
  end.

(** Lines 46 to 49 of the script go through: the dictionary is built
    from [dict_args], the tokenizer is created, the split mode is looked
    up and [tokenize] returns the morphemes [ms] for [text]. *)
Definition tokenizes (lib : Sudachi) (args : Namespace) (text : pystr)
    (ms : list Morpheme) : Prop :=
  exists d tk sm,
    Dictionary lib (dict_args_of args) = inr d
    /\ create lib d = inr tk
    /\ getattr_SplitMode (mode args) = inr sm
    /\ tokenize lib tk text sm = inr ms.

(** The morphemes a library returns for a text, through a dictionary
    built from [kw], or [None] when one of the three calls raises. *)
Definition tokenizer_answer (lib : Sudachi) (kw : kwargs) (text : pystr)
    (sm : SplitMode.t) : option (list Morpheme) :=
  match Dictionary lib kw with
  | inl _ => None
  | inr d =>
      match create lib d with
      | inl _ => None
      | inr tk =>
          match tokenize lib tk text sm with
          | inl _ => None
          | inr ms => Some ms
          end
      end
  end.

(** The exception that ends [main] on an input that is not blank: that
    of the first step that raises among the dictionary constructor,
    [create], the lookup of the split mode and [tokenize], in the order
    of lines 46 to 49; [None] when all four return. *)
Definition first_failure (lib : Sudachi) (args : Namespace) (text : pystr)
  : option PyExn :=
  match Dictionary lib (dict_args_of args) with
  | inl e => Some e
  | inr d =>
      match create lib d with
      | inl e => Some e
      | inr tk =>
          match getattr_SplitMode (mode args) with
          | inl e => Some e
          | inr sm =>
              match tokenize lib tk text sm with
              | inl e => Some e
              | inr _ => None
              end
          end
      end
  end.

(** Two namespaces [main] cannot tell apart: the same mode and the same
    keyword arguments for the dictionary. *)
Definition same_for_main (n1 n2 : Namespace) : Prop :=
  mode n1 = mode n2 /\ dict_args_of n1 = dict_args_of n2.

(** *** Observations on a run *)

Definition stdout_of (t : trace) : pystr :=
  flat_map (fun e => match e with StdoutWrite s => s | _ => [] end) t.

Definition stderr_of (t : trace) : pystr :=
  flat_map (fun e => match e with StderrWrite s => s | _ => [] end) t.

Definition is_stderr_write (e : event) : bool :=
  match e with StderrWrite _ => true | _ => false end.

Definition is_library_call (e : event) : bool :=
  match e with
  | CallDictionary _ | CallCreate | CallTokenize _ _ => true
  | _ => false
  end.

Definition is_stdin_read (e : event) : bool :=
  match e with StdinRead => true | _ => false end.

Definition is_success (s : status) : bool :=
  match s with Exit 0 => true | _ => false end.

(** The parser reported an error (exit status 2). *)
Definition is_rejected (r : parse_result) : bool :=
  match r with ExitError _ => true | _ => false end.

(** The parser printed the help (exit status 0). *)
Definition is_help (r : parse_result) : bool :=
  match r with ExitHelp => true | _ => false end.

End Script.

(* ================================================================= *)
(** ** Reading the printed line back

    A reader for the one format [main] prints: an array of objects with the
    five keys in the order of [morpheme_entry].  It is not part of the
    script; it is the left inverse used to show that the printed line
    determines the morphemes, field by field and in order. *)

Module JsonRead.
Import Script.

Definition unhex (c : N) : option N :=
  if (48 <=? c) && (c <=? 57) then Some (c - 48)
  else if (97 <=? c) && (c <=? 102) then Some (c - 87)
  else if (65 <=? c) && (c <=? 70) then Some (c - 55)
  else None.

(** The characters of a JSON string up to its closing quote, unescaped,
    and the text after the quote. *)
Fixpoint scan_string (s : pystr) : option (pystr * pystr) :=
  match s with
  | [] => None
  | c :: s1 =>
      if c =? 34 then Some ([], s1)
      else if c =? 92 then
        match s1 with
        | [] => None
        | e :: s2 =>
            let simple (d : N) :=
              match scan_string s2 with
              | Some (r, rest) => Some (d :: r, rest)
              | None => None
              end in
            if e =? 34 then simple 34
            else if e =? 92 then simple 92
            else if e =? 47 then simple 47
            else if e =? 98 then simple 8
            else if e =? 102 then simple 12
            else if e =? 110 then simple 10
            else if e =? 114 then simple 13
            else if e =? 116 then simple 9
            else if e =? 117 then
              match s2 with
              | h1 :: h2 :: h3 :: h4 :: s3 =>
                  match unhex h1, unhex h2, unhex h3, unhex h4 with
                  | Some a, Some b, Some c', Some d =>
                      match scan_string s3 with
                      | Some (r, rest) =>
                          Some ((((a * 16 + b) * 16 + c') * 16 + d) :: r, rest)
                      | None => None
                      end
                  | _, _, _, _ => None
                  end
              | _ => None
              end
            else None
        end
      else
        match scan_string s1 with
        | Some (r, rest) => Some (c :: r, rest)
        | None => None
        end
  end.

(** [expect p s]: [s] without its prefix [p]. *)
Fixpoint expect (p s : pystr) : option pystr :=
  match p with
  | [] => Some s
  | x :: p' =>
      match s with
      | y :: s' => if x =? y then expect p' s' else None
      | [] => None
      end
  end.


Section Arrays.
Variable X : Type.
Variable read_item : pystr -> option (X * pystr).



End Arrays.



(** *** A reader for JSON texts

    A reader for any JSON text built from [null], [true], [false],
    strings, arrays and objects, with white space allowed between the
    tokens.  It shares nothing with [dumps]: quotes, brackets, braces,
    commas and colons are read as the characters they are. *)

Definition is_json_ws (c : N) : bool :=
  (c =? 32) || (c =? 9) || (c =? 10) || (c =? 13).

Fixpoint skip_ws (s : pystr) : pystr :=
  match s with
  | [] => []
  | c :: s' => if is_json_ws c then skip_ws s' else s
  end.

(** [read_value] reads one value, [read_elements] the elements of a
    non-empty array up to its closing bracket, [read_members] the members
    of a non-empty object up to its closing brace. *)
Fixpoint read_value (fuel : nat) (s : pystr) {struct fuel}
  : option (pyval * pystr) :=
  match fuel with
  | O => None
  | S fuel' =>
      match skip_ws s with
      | [] => None
      | c :: r =>
          if c =? 34 then
            match scan_string r with
            | Some (str, r') => Some (PStr str, r')
            | None => None
            end
          else if c =? 91 then
            match skip_ws r with
            | [] => None
            | c' :: r' =>
                if c' =? 93 then Some (PList [], r')
                else match read_elements fuel' r with
                     | Some (l, r'') => Some (PList l, r'')
                     | None => None
                     end
            end
          else if c =? 123 then
            match skip_ws r with
            | [] => None
            | c' :: r' =>
                if c' =? 125 then Some (PDict [], r')
                else match read_members fuel' r with
                     | Some (l, r'') => Some (PDict l, r'')
                     | None => None
                     end
            end
          else
            match expect (lit "null") (c :: r) with
            | Some r' => Some (PNone, r')
            | None =>
                match expect (lit "true") (c :: r) with
                | Some r' => Some (PBool true, r')
                | None =>
                    match expect (lit "false") (c :: r) with
                    | Some r' => Some (PBool false, r')
                    | None => None
                    end
                end
            end
      end
  end
with read_elements (fuel : nat) (s : pystr) {struct fuel}
  : option (list pyval * pystr) :=
  match fuel with
  | O => None
  | S fuel' =>
      match read_value fuel' s with
      | None => None
      | Some (v, r) =>
          match skip_ws r with
          | [] => None
          | c :: r' =>
              if c =? 44 then
                match read_elements fuel' r' with
                | Some (l, r'') => Some (v :: l, r'')
                | None => None
                end
              else if c =? 93 then Some ([v], r')
              else None
          end
      end
  end
with read_members (fuel : nat) (s : pystr) {struct fuel}
  : option (list (pystr * pyval) * pystr) :=
  match fuel with
  | O => None
  | S fuel' =>
      match skip_ws s with
      | [] => None
      | c :: r =>
          if c =? 34 then
            match scan_string r with
            | None => None
            | Some (key, r1) =>
                match skip_ws r1 with
                | [] => None
                | c1 :: r2 =>
                    if c1 =? 58 then
                      match read_value fuel' r2 with
                      | None => None
                      | Some (v, r3) =>
                          match skip_ws r3 with
                          | [] => None
                          | c3 :: r4 =>
                              if c3 =? 44 then
                                match read_members fuel' r4 with
                                | Some (l, r5) => Some ((key, v) :: l, r5)
                                | None => None
                                end
                              else if c3 =? 125 then Some ([(key, v)], r4)
                              else None
                          end
                      end
                    else None
                end
            end
          else None
      end
  end.

(** The value a JSON text stands for, when the whole text is one value. *)
Definition json_loads (s : pystr) : option pyval :=
  match read_value (S (List.length s)) s with
  | Some (v, r) => match skip_ws r with [] => Some v | _ :: _ => None end
  | None => None
  end.

(** One more character in front of what was scanned. *)
Definition scan_cons (c : N) (r : option (pystr * pystr))
  : option (pystr * pystr) :=
  match r with
  | Some (s, rest) => Some (c :: s, rest)
  | None => None
  end.


End JsonRead.

(* ================================================================= *)
(** ** Shapes of JSON values *)

Module Shape.
Import Script.

Definition is_str (v : pyval) : bool :=
  match v with PStr _ => true | _ => false end.

(** An array whose elements are all strings. *)
Definition is_str_array (v : pyval) : bool :=
  match v with PList l => forallb is_str l | _ => false end.

Definition is_null_or_scalar (v : pyval) : bool :=
  match v with PNone | PBool _ | PStr _ => true | PList _ | PDict _ => false end.

Definition five_fields : list pystr :=
  [lit "surface"; lit "dictionaryForm"; lit "reading"; lit "partOfSpeech";
   lit "normalizedForm"].

Fixpoint keys_eqb (a b : list pystr) : bool :=
  match a, b with
  | [], [] => true
  | x :: a', y :: b' => PyStr.eqb x y && keys_eqb a' b'
  | _, _ => false
  end.

(** [d[key]] on the items of a [dict]. *)
Fixpoint get (key : pystr) (items : list (pystr * pyval)) : option pyval :=
  match items with
  | [] => None
  | (k, v) :: items' => if PyStr.eqb key k then Some v else get key items'
  end.

Definition field_is (p : pyval -> bool) (key : pystr)
    (items : list (pystr * pyval)) : bool :=
  match get key items with Some v => p v | None => false end.

(** An object with exactly the five fields, four of them strings and
    [partOfSpeech] an array of strings. *)
Definition is_morpheme_object (v : pyval) : bool :=
  match v with
  | PDict items =>
      keys_eqb (map fst items) five_fields
      && field_is is_str (lit "surface") items
      && field_is is_str (lit "dictionaryForm") items
      && field_is is_str (lit "reading") items
      && field_is is_str_array (lit "partOfSpeech") items
      && field_is is_str (lit "normalizedForm") items
  | _ => false
  end.

Definition non_ascii (s : pystr) : pystr :=
  filter (fun c => negb (is_ascii c)) s.

(** The non-ASCII characters of the text fields of a morpheme, in the
    order the fields are printed. *)
Definition morpheme_non_ascii (m : Morpheme) : pystr :=
  non_ascii (surface m) ++ non_ascii (dictionary_form m)
  ++ non_ascii (reading_form m)
  ++ flat_map non_ascii (part_of_speech m)
  ++ non_ascii (normalized_form m).

(** The text printed for one morpheme, written out. *)
Definition entry_text (m : Morpheme) : pystr :=
  lit "{" ++ py_encode_basestring (lit "surface") ++ key_separator
  ++ py_encode_basestring (surface m)
  ++ item_separator ++ py_encode_basestring (lit "dictionaryForm")
  ++ key_separator ++ py_encode_basestring (dictionary_form m)
  ++ item_separator ++ py_encode_basestring (lit "reading")
  ++ key_separator ++ py_encode_basestring (reading_form m)
  ++ item_separator ++ py_encode_basestring (lit "partOfSpeech")
  ++ key_separator
  ++ (lit "[" ++ join item_separator
                   (map py_encode_basestring (part_of_speech m)) ++ lit "]")
  ++ item_separator ++ py_encode_basestring (lit "normalizedForm")
  ++ key_separator ++ py_encode_basestring (normalized_form m)
  ++ lit "}".

End Shape.

(* ================================================================= *)
(** ** Example runs *)

Module Examples.
Import Argparse Script.

Definition is_digit (c : N) : bool := (48 <=? c) && (c <=? 57).

Definition digits1 (s : pystr) : bool := truthy s && forallb is_digit s.

(** The negative-number pattern on ASCII digits: [-5], [-.5], [-1.5]. *)
Definition ascii_negative_number (s : pystr) : bool :=
  match s with
  | c :: r =>
      (c =? 45)
      && (digits1 r
          || match split1 46 r with
             | Some (a, b) => forallb is_digit a && digits1 b
             | None => false
             end)
  | [] => false
  end.

Definition example_platform : Platform :=
  {| prog := lit "sudachi_tokenize.py";
     format_usage :=
       lit "usage: sudachi_tokenize.py [-h] [--mode {A,B,C}] [--config CONFIG]"
       ++ [10];
     format_help :=
       lit "usage: sudachi_tokenize.py [-h] [--mode {A,B,C}] [--config CONFIG]"
       ++ [10; 10] ++ lit "Tokenize Japanese text with SudachiPy" ++ [10];
     error_message := fun e =>
       match e with
       | AmbiguousOption _ _ => lit "ambiguous option"
       | ExpectedOneArgument _ => lit "expected one argument"
       | IgnoredExplicitArgument _ _ => lit "ignored explicit argument"
       | InvalidChoice _ _ => lit "argument --mode: invalid choice"
       | UnrecognizedArguments _ => lit "unrecognized arguments"
       end;
     negative_number_matcher := ascii_negative_number |}.

Definition noun : list pystr := [[0x540D; 0x8A5E]; lit "*"].

Definition char_morpheme (c : N) : Morpheme :=
  {| surface := [c]; dictionary_form := [c]; reading_form := [c];
     part_of_speech := noun; normalized_form := [c] |}.

(** A stand-in library: one morpheme per character, any configuration. *)
Definition char_tokenizer : Sudachi :=
  {| Dict := unit; Tok := unit;
     Dictionary := fun _ => inr tt;
     create := fun _ => inr tt;
     tokenize := fun _ text _ => inr (map char_morpheme text) |}.

(** The same answers behind other handles. *)
Definition char_tokenizer_alt : Sudachi :=
  {| Dict := bool; Tok := nat;
     Dictionary := fun _ => inr true;
     create := fun _ => inr 7%nat;
     tokenize := fun _ text _ => inr (map char_morpheme text) |}.

(** A stand-in library that answers like [char_tokenizer] only for a
    dictionary built without keyword arguments and the split mode [C]:
    with a configuration it cannot be built, and in the modes [A] and [B]
    it finds no morpheme. *)
Definition default_only_tokenizer : Sudachi :=
  {| Dict := unit; Tok := unit;
     Dictionary := fun kw =>
       match kw with
       | [] => inr tt
       | _ :: _ => inl (OtherError (lit "FileNotFoundError"))
       end;
     create := fun _ => inr tt;
     tokenize := fun _ text sm =>
       match sm with
       | SplitMode.C => inr (map char_morpheme text)
       | SplitMode.A | SplitMode.B => inr []
       end |}.

(** A stand-in library that cannot load any configuration file named on
    the command line. *)
Definition no_config_file : Sudachi :=
  {| Dict := unit; Tok := unit;
     Dictionary := fun kw =>
       match kw with
       | [] => inr tt
       | _ :: _ => inl (OtherError (lit "FileNotFoundError"))
       end;
     create := fun _ => inr tt;
     tokenize := fun _ text _ => inr (map char_morpheme text) |}.

(** The text of the scenario of the specification, six characters. *)
Definition tokyo : pystr := [0x6771; 0x4EAC; 0x90FD; 0x306B; 0x884C; 0x304F].

Definition missing_config : pystr := lit "/nonexistent/sudachi.json".

End Examples.

(* ================================================================= *)
(** ** The command line and the run, seen from outside *)

Module Cli.
Import Argparse Script.

(** The name of a split-mode constant, as it is written after [--mode]. *)
Definition mode_name (sm : SplitMode.t) : pystr :=
  match sm with
  | SplitMode.A => lit "A"
  | SplitMode.B => lit "B"
  | SplitMode.C => lit "C"
  end.



(** No C0 control character: every code point is U+0020 or above, so
    that the text holds no line feed, no carriage return and no tab.
    Nothing is said of DEL (U+007F), of the C1 controls (U+0080 to
    U+009F, the next-line character U+0085 among them) or of the line and
    paragraph separators U+2028 and U+2029. *)
Definition no_c0_control (s : pystr) : bool :=
  forallb (fun c => 0x20 <=? c) s.

(** The argument is written [OPTION=--]: the text after its first [=]
    is [--]. *)
Definition explicit_double_dash (s : pystr) : bool :=
  match split1 equals s with
  | Some (_, e) => PyStr.eqb e (lit "--")
  | None => false
  end.

(** [s] neither starts nor ends with a whitespace character. *)
Definition trimmed (s : pystr) : bool :=
  match s with
  | [] => true
  | c :: _ => negb (isspace c)
  end
  && match rev s with
     | [] => true
     | c :: _ => negb (isspace c)
     end.

(** An argument string that is not written like an option and does not
    follow one: [after_option] tells whether the string before starts
    with [-]. *)
Fixpoint stray (after_option : bool) (argv : list pystr) : bool :=
  match argv with
  | [] => false
  | s :: rest =>
      if startswith s (lit "-") then stray true rest
      else negb after_option || stray false rest
  end.

(** The same on classified arguments: an argument that no option takes,
    the separator, or an option the parser does not know. *)
Fixpoint stray_c (after_option : bool) (cs : list carg) : bool :=
  match cs with
  | [] => false
  | CA _ :: rest => negb after_option || stray_c false rest
  | CSep _ :: _ => true
  | CO _ None _ _ :: _ => true
  | CO _ (Some _) _ _ :: rest => stray_c true rest
  end.

End Cli.

(* ================================================================= *)
(** * Properties *)

Import Argparse Script JsonRead Shape Examples.
Local Open Scope prog_scope.
Unset Implicit Arguments.

Arguments in_choices : simpl never.

(** ** Strings *)

Lemma eqb_eq (a b : pystr) : PyStr.eqb a b = true <-> a = b.
Proof.
  revert b; induction a as [|x a IH]; intros [|y b]; simpl;
    try (split; [discriminate | discriminate]); try tauto.
  rewrite andb_true_iff, N.eqb_eq, IH.
  split; [intros [-> ->]; reflexivity | intros H; injection H; auto].
Qed.


Lemma lstrip_nil_iff (s : pystr) : lstrip s = [] <-> whitespace_only s = true.
Proof.
  induction s as [|c s IH]; simpl; [tauto |].
  destruct (isspace c); simpl; [exact IH | split; discriminate].
Qed.

Lemma whitespace_only_app (a b : pystr) :
  whitespace_only (a ++ b) = whitespace_only a && whitespace_only b.
Proof. apply forallb_app. Qed.

Lemma whitespace_only_rev (s : pystr) :
  whitespace_only (rev s) = whitespace_only s.
Proof.
  induction s as [|c s IH]; simpl; [reflexivity |].
  rewrite whitespace_only_app, IH; simpl.
  rewrite andb_true_r; apply andb_comm.
Qed.

(** What [lstrip] leaves is empty or starts with a character that is not
    whitespace. *)
Lemma lstrip_whitespace_only (s : pystr) :
  whitespace_only (lstrip s) = true -> lstrip s = [].
Proof.
  induction s as [|c s IH]; simpl; [reflexivity |].
  destruct (isspace c) eqn:E; [exact IH |].
  simpl; rewrite E; discriminate.
Qed.

(** [strip] leaves nothing exactly of the texts that are empty or hold
    whitespace only. *)
Lemma strip_nil_iff (s : pystr) : strip s = [] <-> whitespace_only s = true.
Proof.
  unfold strip, rstrip; split.
  - intros H.
    assert (H1 : lstrip (rev (lstrip s)) = []).
    { apply (f_equal (@rev N)) in H; rewrite rev_involutive in H; exact H. }
    apply lstrip_nil_iff in H1; rewrite whitespace_only_rev in H1.
    apply lstrip_nil_iff, lstrip_whitespace_only; exact H1.
  - intros H; apply lstrip_nil_iff in H; rewrite H; reflexivity.
Qed.

Lemma truthy_false_iff (s : pystr) : truthy s = false <-> s = [].
Proof. destruct s; simpl; split; congruence. Qed.

(** ** The loop of [main] *)

Lemma fold_append_map {X Y} (f : X -> Y) (l : list X) (acc : list Y) :
  fold_left (fun payload x => payload ++ [f x]) l acc = acc ++ map f l.
Proof.
  revert acc; induction l as [|x l IH]; intros acc; simpl.
  - now rewrite app_nil_r.
  - rewrite IH, <- app_assoc; reflexivity.
Qed.

Lemma build_payload_map (ms : list Morpheme) :
  build_payload ms = map morpheme_entry ms.
Proof. unfold build_payload; rewrite fold_append_map; reflexivity. Qed.

(** ** The argument parser *)


Lemma in_choices_mode (v : pystr) :
  in_choices v mode_choices = true <->
  v = lit "A" \/ v = lit "B" \/ v = lit "C".
Proof.
  unfold in_choices, mode_choices; simpl.
  rewrite !orb_true_iff, !eqb_eq; intuition congruence.
Qed.

Lemma getattr_SplitMode_choice (v : pystr) :
  in_choices v mode_choices = true ->
  exists sm, getattr_SplitMode (Str v) = inr sm.
Proof.
  intros H; apply in_choices_mode in H.
  destruct H as [-> | [-> | ->]]; eexists; reflexivity.
Qed.

(** The values [_get_values] returns for [--mode]: the empty list for
    the string [--], a choice otherwise. *)
Lemma _get_values_mode (v : pystr) (value : argvalue) :
  _get_values StoreMode v = inr value ->
  (v = lit "--" /\ value = EmptyList)
  \/ (value = Str v /\ in_choices v mode_choices = true).
Proof.
  unfold _get_values; cbn [choices_of].
  destruct (PyStr.eqb v (lit "--")) eqn:E.
  - apply eqb_eq in E; intros [= <-]; left; auto.
  - destruct (in_choices v mode_choices) eqn:Ec; [|discriminate].
    intros [= <-]; right; auto.
Qed.

Lemma _get_values_config (v : pystr) :
  _get_values StoreConfig v
  = inr (if PyStr.eqb v (lit "--") then EmptyList else Str v).
Proof.
  unfold _get_values; cbn [choices_of].
  destruct (PyStr.eqb v (lit "--")); reflexivity.
Qed.

Lemma take_action_mode_ok a args ns ns' :
  take_action a args ns = inr ns' -> mode_ok ns -> mode_ok ns'.
Proof.
  unfold mode_ok; destruct a; cbn [take_action]; [discriminate | |].
  - destruct args as [|v [|? ?]]; try (intros [= <-]; auto).
    destruct (_get_values StoreMode v) as [e|value] eqn:E; [discriminate |].
    intros [= <-] _; cbn [mode].
    destruct (_get_values_mode v value E) as [[_ ->] | [-> Hc]];
      [exact I | exact Hc].
  - destruct args as [|v [|? ?]]; try (intros [= <-]; auto).
    rewrite _get_values_config; intros [= <-]; auto.
Qed.

Lemma take_actions_mode_ok tuples ns ns' :
  take_actions tuples ns = inr ns' -> mode_ok ns -> mode_ok ns'.
Proof.
  revert ns; induction tuples as [|[a args] tuples IH]; intros ns; simpl.
  - intros [= <-]; auto.
  - destruct (take_action a args ns) as [r|ns1] eqn:E; [discriminate |].
    intros H Hok; eapply IH; [exact H |].
    eapply take_action_mode_ok; eauto.
Qed.

Lemma take_action_not_parsed a args ns r :
  take_action a args ns = inl r -> forall ns', r <> Parsed ns'.
Proof.
  destruct a; cbn [take_action].
  - intros [= <-]; discriminate.
  - destruct args as [|v [|? ?]]; try discriminate.
    destruct (_get_values StoreMode v); [|discriminate].
    intros [= <-]; discriminate.
  - destruct args as [|v [|? ?]]; try discriminate.
    destruct (_get_values StoreConfig v); [|discriminate].
    intros [= <-]; discriminate.
Qed.

Lemma take_actions_not_parsed tuples ns r :
  take_actions tuples ns = inl r -> forall ns', r <> Parsed ns'.
Proof.
  revert ns; induction tuples as [|[a args] tuples IH]; intros ns; simpl;
    [discriminate |].
  destruct (take_action a args ns) as [r1|ns1] eqn:E; [|apply IH].
  intros [= <-]; eapply take_action_not_parsed; eauto.
Qed.

Lemma lookup_short (c : N) (a : action) :
  lookup [dash; c] option_string_actions = Some a -> a = HelpAction.
Proof.
  unfold option_string_actions; simpl.
  destruct (c =? 104); simpl; [intros [= <-]; reflexivity |].
  destruct (c =? 45); simpl; discriminate.
Qed.

Lemma take_actions_step (P : Namespace -> Prop) (Q : parse_result -> Prop)
    (ok : action -> bool) tuples ns (k : Namespace -> parse_result) :
  (forall ns1, P ns1 -> Q (k ns1)) ->
  (forall r, (forall ns', r <> Parsed ns') -> Q r) ->
  (forall a args ns0 ns1,
     ok a = true -> take_action a args ns0 = inr ns1 -> P ns0 -> P ns1) ->
  forallb (tuple_ok ok) tuples = true ->
  P ns ->
  Q (match take_actions tuples ns with inl r => r | inr ns1 => k ns1 end).
Proof.
  intros Hk Hq Hstep; revert ns.
  induction tuples as [|[a args] tuples IH]; intros ns Hok Hns; simpl.
  - apply Hk, Hns.
  - simpl in Hok; apply andb_true_iff in Hok; destruct Hok as [Ha Hok].
    destruct (take_action a args ns) as [r|ns1] eqn:E.
    + apply Hq; eapply take_action_not_parsed; eauto.
    + apply IH; [exact Hok | eapply Hstep; eauto].
Qed.

Lemma forallb_tuple_ok_snoc ok tuples a args :
  forallb (tuple_ok ok) tuples = true -> ok a = true ->
  forallb (tuple_ok ok) (tuples ++ [(a, args)]) = true.
Proof.
  intros Ht Ha; rewrite forallb_app, Ht; simpl.
  unfold tuple_ok; simpl; rewrite Ha; reflexivity.
Qed.

(** The actions [consume_explicit] collects are the one it starts from
    and, after a single-dash option, [HelpAction]. *)
Lemma consume_explicit_ok (ok : action -> bool) :
  ok HelpAction = true ->
  forall e a os tuples,
    ok a = true -> forallb (tuple_ok ok) tuples = true ->
    match consume_explicit a os e tuples with
    | ExplicitError _ => True
    | ExplicitDone t => forallb (tuple_ok ok) t = true
    | ExplicitPending t a' => forallb (tuple_ok ok) t = true /\ ok a' = true
    end.
Proof.
  intros Hh; induction e as [|c tail IH]; intros a os tuples Ha Ht;
    cbn [consume_explicit].
  - destruct (nargs a =? 1); [apply forallb_tuple_ok_snoc; assumption | exact I].
  - destruct ((nargs a =? 0)
              && match os with
                 | _ :: c1 :: _ => negb (c1 =? dash)
                 | _ => false
                 end).
    + destruct (lookup [dash; c] option_string_actions) as [a'|] eqn:El;
        [|exact I].
      apply lookup_short in El; subst a'.
      destruct tail as [|c' tail'].
      * split; [apply forallb_tuple_ok_snoc; assumption | exact Hh].
      * apply IH; [exact Hh | apply forallb_tuple_ok_snoc; assumption].
    + destruct (nargs a =? 1);
        [apply forallb_tuple_ok_snoc; assumption | exact I].
Qed.

(** An invariant of the namespace that the actions named on the command
    line keep holds of the namespace the parser returns. *)
Lemma consume_invariant_on (P : Namespace -> Prop) (ok : action -> bool) :
  ok HelpAction = true ->
  (forall a args ns0 ns1,
     ok a = true -> take_action a args ns0 = inr ns1 -> P ns0 -> P ns1) ->
  forall l ns extras ns',
    forallb (carg_ok ok) l = true ->
    consume l ns extras = Parsed ns' -> P ns -> P ns'.
Proof.
  intros Hh Hstep l.
  assert (H : forall n l, (List.length l <= n)%nat -> forall ns extras ns',
             forallb (carg_ok ok) l = true ->
             P ns -> consume l ns extras = Parsed ns' -> P ns').
  { clear l; induction n as [|n IH]; intros l Hlen ns extras ns' Hok Hns.
    - destruct l; [|simpl in Hlen; lia].
      simpl; destruct extras; [intros [= <-]; auto | discriminate].
    - destruct l as [|c l].
      + simpl; destruct extras; [intros [= <-]; auto | discriminate].
      + simpl in Hlen, Hok; apply andb_true_iff in Hok.
        destruct Hok as [Hc Hl].
        assert (Hn : (List.length l <= n)%nat) by lia.
        cbn [consume].
        assert (noexp : forall a tuples,
          ok a = true -> forallb (tuple_ok ok) tuples = true ->
          match nargs a with
          | 0 => match take_actions (tuples ++ [(a, [])]) ns with
                 | inl r => r | inr ns1 => consume l ns1 extras end
          | _ => match l with
                 | CA v :: l'' =>
                     match take_actions (tuples ++ [(a, [v])]) ns with
                     | inl r => r | inr ns1 => consume l'' ns1 extras end
                 | _ => ExitError (ExpectedOneArgument a)
                 end
          end = Parsed ns' -> P ns').
        { intros a tuples Ha Ht; destruct (nargs a).
          - apply (take_actions_step P (fun r => r = Parsed ns' -> P ns') ok);
              auto.
            + intros ns1 H1 H2; eapply IH; eauto.
            + intros r Hr ->; exfalso; eapply Hr; reflexivity.
            + apply forallb_tuple_ok_snoc; assumption.
          - destruct l as [|[v | v | v o os e] l'']; try discriminate.
            apply (take_actions_step P (fun r => r = Parsed ns' -> P ns') ok);
              auto.
            + intros ns1 H1 H2; eapply (IH l''); eauto.
              simpl in Hn; lia.
            + intros r Hr ->; exfalso; eapply Hr; reflexivity.
            + apply forallb_tuple_ok_snoc; assumption. }
        destruct c as [s | s | s [a|] os [e|]];
          try (apply IH; assumption);
          [| apply (noexp a []); [exact Hc | reflexivity]].
        pose proof (consume_explicit_ok ok Hh e a os [] Hc eq_refl) as He.
        destruct (consume_explicit a os e []) as [err | tuples | tuples a'];
          [discriminate | | destruct He; apply noexp; assumption].
        apply (take_actions_step P (fun r => r = Parsed ns' -> P ns') ok);
          auto.
        * intros ns1 H1 H2; eapply IH; eauto.
        * intros r Hr ->; exfalso; eapply Hr; reflexivity. }
  intros ns extras ns' Hok Hc Hns; eapply H; eauto.
Qed.

Lemma carg_ok_all (l : list carg) : forallb (carg_ok (fun _ => true)) l = true.
Proof.
  induction l as [|[s | s | s [a|] os e] l IH]; simpl; auto.
Qed.

Lemma consume_invariant (P : Namespace -> Prop) :
  (forall a args ns0 ns1, take_action a args ns0 = inr ns1 -> P ns0 -> P ns1) ->
  forall l ns extras ns',
    consume l ns extras = Parsed ns' -> P ns -> P ns'.
Proof.
  intros Hstep l ns extras ns' Hc.
  apply (consume_invariant_on P (fun _ => true) eq_refl
           (fun a args n0 n1 _ => Hstep a args n0 n1)
           l ns extras ns' (carg_ok_all l) Hc).
Qed.

(** Whatever the command line, a namespace the parser returns holds in
    [mode] one of the three choices or the empty list. *)
Lemma parsed_mode_ok nn argv ns :
  parser_parse_args nn argv = Parsed ns -> mode_ok ns.
Proof.
  unfold parser_parse_args.
  destruct (classify nn argv) as [e|cs]; [discriminate |].
  intros H; eapply (consume_invariant mode_ok); [| exact H | reflexivity].
  intros a args ns0 ns1; apply take_action_mode_ok.
Qed.

(** *** Two runs of the parser on related namespaces *)



Lemma take_actions_rel (R : Namespace -> Namespace -> Prop)
    (k1 k2 : Namespace -> parse_result) tuples :
  action_rel R ->
  (forall m1 m2, R m1 m2 -> result_rel R (k1 m1) (k2 m2)) ->
  forall n1 n2, R n1 n2 ->
  result_rel R
    (match take_actions tuples n1 with inl r => r | inr m => k1 m end)
    (match take_actions tuples n2 with inl r => r | inr m => k2 m end).
Proof.
  intros Hact Hk; induction tuples as [|[a args] tuples IH];
    intros n1 n2 HR; simpl.
  - apply Hk, HR.
  - pose proof (Hact a args n1 n2 HR) as H.
    destruct (take_action a args n1) as [r1|m1] eqn:E1;
      destruct (take_action a args n2) as [r2|m2] eqn:E2;
      try contradiction.
    + subst r2.
      pose proof (take_action_not_parsed _ _ _ _ E1) as Hn.
      unfold result_rel; destruct r1; try (split; [reflexivity | exact Hn]).
      exfalso; eapply Hn; reflexivity.
    + apply IH, H.
Qed.

Lemma result_rel_error R e : result_rel R (ExitError e) (ExitError e).
Proof. simpl; split; [reflexivity | discriminate]. Qed.

Lemma consume_rel (R : Namespace -> Namespace -> Prop) :
  action_rel R ->
  forall l n1 n2 extras, R n1 n2 ->
    result_rel R (consume l n1 extras) (consume l n2 extras).
Proof.
  intros Hact l.
  assert (H : forall n l, (List.length l <= n)%nat ->
            forall n1 n2 extras, R n1 n2 ->
              result_rel R (consume l n1 extras) (consume l n2 extras)).
  { clear l; induction n as [|n IH]; intros l Hlen n1 n2 extras HR.
    - destruct l; [|simpl in Hlen; lia].
      simpl; destruct extras; [exact HR | apply result_rel_error].
    - destruct l as [|c l]; simpl in *.
      + destruct extras; [exact HR | apply result_rel_error].
      + assert (Hl : (List.length l <= n)%nat) by lia.
        assert (noexp : forall a tuples,
          result_rel R
            (match nargs a with
             | 0 => match take_actions (tuples ++ [(a, [])]) n1 with
                    | inl r => r | inr m => consume l m extras end
             | _ => match l with
                    | CA v :: l'' =>
                        match take_actions (tuples ++ [(a, [v])]) n1 with
                        | inl r => r | inr m => consume l'' m extras end
                    | _ => ExitError (ExpectedOneArgument a)
                    end
             end)
            (match nargs a with
             | 0 => match take_actions (tuples ++ [(a, [])]) n2 with
                    | inl r => r | inr m => consume l m extras end
             | _ => match l with
                    | CA v :: l'' =>
                        match take_actions (tuples ++ [(a, [v])]) n2 with
                        | inl r => r | inr m => consume l'' m extras end
                    | _ => ExitError (ExpectedOneArgument a)
                    end
             end)).
        { intros a tuples; destruct (nargs a).
          - apply (take_actions_rel R (fun m => consume l m extras)
                     (fun m => consume l m extras)); auto.
          - destruct l as [|[v | v | v o os e] l''];
              try apply result_rel_error.
            apply (take_actions_rel R (fun m => consume l'' m extras)
                     (fun m => consume l'' m extras)); auto.
            intros m1 m2 Hm; apply IH; [simpl in Hl; lia | exact Hm]. }
        destruct c as [s | s | s [a|] os [e|]];
          try (apply IH; assumption); [| apply (noexp a [])].
        destruct (consume_explicit a os e []) as [err | tuples | tuples a'];
          [apply result_rel_error | | apply noexp].
        apply (take_actions_rel R (fun m => consume l m extras)
                 (fun m => consume l m extras)); auto. }
  intros n1 n2 extras HR; eapply H; eauto.
Qed.


Lemma same_for_main_action : action_rel same_for_main.
Proof.
  intros a args n1 n2 [Hm Hd]; destruct a; cbn [take_action];
    [reflexivity | |].
  - destruct args as [|v [|? ?]]; try (split; assumption).
    destruct (_get_values StoreMode v); [reflexivity |].
    split; [reflexivity | exact Hd].
  - destruct args as [|v [|? ?]]; try (split; assumption).
    rewrite _get_values_config.
    split; [exact Hm | reflexivity].
Qed.

Lemma main_body_same lib n1 n2 stdin :
  same_for_main n1 n2 -> main_body lib n1 stdin = main_body lib n2 stdin.
Proof. intros [Hm Hd]; unfold main_body; rewrite Hm, Hd; reflexivity. Qed.

(** *** The default of [--mode] *)

Lemma split1_spec (c : N) (s l r : pystr) :
  split1 c s = Some (l, r) -> s = l ++ c :: r.
Proof.
  revert l; induction s as [|x s IH]; intros l; simpl; [discriminate |].
  destruct (N.eqb_spec x c) as [->|Hx].
  - intros [= <- <-]; reflexivity.
  - destruct (split1 c s) as [[l' r']|]; [|discriminate].
    intros [= <- <-]; rewrite (IH l' eq_refl); reflexivity.
Qed.

Lemma lookup_StoreMode (s : pystr) :
  lookup s option_string_actions = Some StoreMode -> s = lit "--mode".
Proof.
  unfold option_string_actions; simpl.
  destruct (PyStr.eqb s (lit "-h")); [discriminate |].
  destruct (PyStr.eqb s (lit "--help")); [discriminate |].
  destruct (PyStr.eqb s (lit "--mode")) eqn:E;
    [intros _; apply eqb_eq, E |].
  destruct (PyStr.eqb s (lit "--config")); discriminate.
Qed.

Lemma startswith_mode (x : N) (p : pystr) :
  startswith (lit "--mode") (dash :: dash :: x :: p) = true -> x = 109.
Proof.
  change (lit "--mode") with [45; 45; 109; 111; 100; 101].
  cbn [startswith]; rewrite !andb_true_iff; intros (_ & _ & H & _).
  apply N.eqb_eq in H; symmetry; exact H.
Qed.

Lemma _get_option_tuples_mode (s os : pystr) (e : option pystr) :
  _get_option_tuples s = [(StoreMode, os, e)] ->
  startswith s (lit "--m") = true.
Proof.
  destruct s as [|c0 [|c1 rest]]; try discriminate.
  unfold _get_option_tuples.
  destruct (N.eqb_spec c0 dash) as [->|H0]; [|discriminate].
  destruct (N.eqb_spec c1 dash) as [->|H1]; cbn [andb].
  - assert (Hs : split1 equals (dash :: dash :: rest)
                 = match split1 equals rest with
                   | Some (l, r) => Some (dash :: dash :: l, r)
                   | None => None
                   end).
    { simpl; destruct (split1 equals rest) as [[l r]|]; reflexivity. }
    rewrite Hs; clear Hs.
    assert (Hgen : forall p tail ex,
              rest = p ++ tail ->
              flat_map (fun oa : pystr * action =>
                          if startswith (fst oa) (dash :: dash :: p)
                          then [(snd oa, fst oa, ex)] else [])
                       option_string_actions = [(StoreMode, os, e)] ->
              startswith (dash :: dash :: rest) (lit "--m") = true).
    { intros p tail ex -> .
      destruct p as [|x p]; [discriminate |].
      unfold option_string_actions; cbn [flat_map fst snd].
      destruct (startswith (lit "-h") (dash :: dash :: x :: p));
        destruct (startswith (lit "--help") (dash :: dash :: x :: p));
        destruct (startswith (lit "--mode") (dash :: dash :: x :: p)) eqn:B;
        destruct (startswith (lit "--config") (dash :: dash :: x :: p));
        cbn [app]; intros H; try discriminate H.
      apply startswith_mode in B; subst x.
      simpl; destruct (p ++ tail); reflexivity. }
    destruct (split1 equals rest) as [[l r]|] eqn:E.
    + apply (Hgen l (equals :: r) (Some r)); apply split1_spec, E.
    + apply (Hgen rest [] None); symmetry; apply app_nil_r.
  - unfold option_string_actions; cbn [flat_map fst snd firstn skipn].
    destruct (PyStr.eqb (lit "--mode") [dash; c1]) eqn:B1.
    { exfalso; revert B1.
      change (lit "--mode") with [45; 45; 109; 111; 100; 101].
      cbn [PyStr.eqb]; destruct (45 =? dash); destruct (45 =? c1);
        discriminate. }
    destruct (startswith (lit "--mode") (dash :: c1 :: rest)) eqn:B2.
    { exfalso; revert B2.
      change (lit "--mode") with [45; 45; 109; 111; 100; 101].
      cbn [startswith]; rewrite !andb_true_iff; intros (_ & H & _).
      apply N.eqb_eq in H; apply H1; symmetry; exact H. }
    repeat match goal with
           | |- context [if ?b then _ else _] => destruct b
           end; cbn [app]; intros H; discriminate H.
Qed.

(** Only an argument that starts with [--m] is taken for [--mode]. *)
Lemma _parse_optional_mode nn (s : pystr) (c : carg) :
  _parse_optional nn s = inr c -> mentions_mode c = true ->
  startswith s (lit "--m") = true.
Proof.
  unfold _parse_optional.
  destruct s as [|c0 rest]; [intros [= <-]; discriminate |].
  destruct (negb (c0 =? dash)); [intros [= <-]; discriminate |].
  destruct (lookup (c0 :: rest) option_string_actions) as [a|] eqn:El.
  { intros [= <-]; destruct a; try discriminate.
    intros _; rewrite (lookup_StoreMode _ El); reflexivity. }
  destruct rest as [|c1 rest]; [intros [= <-]; discriminate |].
  cbv zeta.
  destruct (split1 equals (c0 :: c1 :: rest)) as [[os ex]|] eqn:Es;
    [destruct (lookup os option_string_actions) as [a|] eqn:Eo |].
  - intros [= <-]; destruct a; try discriminate.
    intros _; apply lookup_StoreMode in Eo; subst os.
    apply split1_spec in Es; rewrite Es; reflexivity.
  - destruct (_get_option_tuples (c0 :: c1 :: rest))
      as [|[[a os'] e'] [|? ?]] eqn:Et.
    + destruct (nn (c0 :: c1 :: rest)); [intros [= <-]; discriminate |].
      destruct (contains space (c0 :: c1 :: rest));
        intros [= <-]; discriminate.
    + intros [= <-]; destruct a; try discriminate.
      intros _; eapply _get_option_tuples_mode; exact Et.
    + discriminate.
  - destruct (_get_option_tuples (c0 :: c1 :: rest))
      as [|[[a os'] e'] [|? ?]] eqn:Et.
    + destruct (nn (c0 :: c1 :: rest)); [intros [= <-]; discriminate |].
      destruct (contains space (c0 :: c1 :: rest));
        intros [= <-]; discriminate.
    + intros [= <-]; destruct a; try discriminate.
      intros _; eapply _get_option_tuples_mode; exact Et.
    + discriminate.
Qed.

Lemma classify_mode nn (argv : list pystr) (cs : list carg) :
  classify nn argv = inr cs ->
  existsb mentions_mode cs = true ->
  existsb (fun s => startswith s (lit "--m")) argv = true.
Proof.
  revert cs; induction argv as [|s argv IH]; intros cs; simpl.
  - intros [= <-]; discriminate.
  - destruct (PyStr.eqb s (lit "--")).
    + intros [= <-]; simpl.
      assert (Hca : existsb mentions_mode (map CA argv) = false)
        by (clear; induction argv; [reflexivity | assumption]).
      rewrite Hca; discriminate.
    + destruct (_parse_optional nn s) as [e|c] eqn:Ec; [discriminate |].
      destruct (classify nn argv) as [e|cs'] eqn:Ecs; [discriminate |].
      intros [= <-]; simpl.
      rewrite !orb_true_iff; intros [Hm | Hm].
      * left; eapply _parse_optional_mode; eauto.
      * right; eapply IH; eauto.
Qed.

Lemma mentions_mode_not (l : list carg) :
  existsb mentions_mode l = false -> forallb (carg_ok not_mode) l = true.
Proof.
  induction l as [|c l IH]; simpl; [reflexivity |].
  rewrite orb_false_iff; intros [Hc Hl]; rewrite (IH Hl), andb_true_r.
  destruct c as [s | s | s [[| |]|] os e]; try reflexivity; discriminate.
Qed.

(** When no argument starts with [--m], the namespace the parser returns
    holds the default mode. *)
Lemma parsed_default_mode nn (argv : list pystr) (ns : Namespace) :
  parser_parse_args nn argv = Parsed ns ->
  existsb (fun s => startswith s (lit "--m")) argv = false ->
  mode ns = Str (lit "C").
Proof.
  unfold parser_parse_args.
  destruct (classify nn argv) as [e|cs] eqn:Ec; [discriminate |].
  intros Hc Hm.
  assert (Hcs : existsb mentions_mode cs = false).
  { destruct (existsb mentions_mode cs) eqn:E; [|reflexivity].
    rewrite (classify_mode nn argv cs Ec E) in Hm; discriminate. }
  apply (consume_invariant_on (fun n => mode n = Str (lit "C")) not_mode
           eq_refl)
    with (l := cs) (ns := defaults) (extras := []);
    [| apply mentions_mode_not, Hcs | exact Hc | reflexivity].
  intros a args ns0 ns1 Ha; destruct a; cbn [take_action]; try discriminate.
  destruct args as [|v [|? ?]]; try (intros [= <-]; auto).
  rewrite _get_values_config; intros [= <-]; auto.
Qed.

(** ** Runs of the script *)

Lemma script_parsed pf lib argv stdin ns :
  parser_parse_args (negative_number_matcher pf) argv = Parsed ns ->
  script pf (inr lib) argv stdin = finish (main_body lib ns stdin).
Proof.
  intros H; unfold script, main, parse_args; rewrite H; simpl.
  destruct (main_body lib ns stdin) as [t [s|u]]; reflexivity.
Qed.

Lemma main_body_blank lib ns stdin :
  whitespace_only stdin = true ->
  main_body lib ns stdin
  = ([StdinRead; StdoutWrite (lit "[]"); StdoutWrite [10]], inr tt).
Proof.
  intros H; apply strip_nil_iff in H.
  unfold main_body; simpl; rewrite H; reflexivity.
Qed.

(** The run of [main] after the command line was accepted, case by
    case. *)
Lemma main_body_cases lib ns stdin :
  main_body lib ns stdin
  = if whitespace_only stdin
    then ([StdinRead; StdoutWrite (lit "[]"); StdoutWrite [10]], inr tt)
    else
      match Dictionary lib (dict_args_of ns) with
      | inl e =>
          ([StdinRead; CallDictionary (dict_args_of ns)], inl (Uncaught e))
      | inr d =>
          match create lib d with
          | inl e =>
              ([StdinRead; CallDictionary (dict_args_of ns); CallCreate],
               inl (Uncaught e))
          | inr tk =>
              match getattr_SplitMode (mode ns) with
              | inl e =>
                  ([StdinRead; CallDictionary (dict_args_of ns); CallCreate],
                   inl (Uncaught e))
              | inr sm =>
                  match tokenize lib tk (strip stdin) sm with
                  | inl e =>
                      ([StdinRead; CallDictionary (dict_args_of ns);
                        CallCreate; CallTokenize (strip stdin) sm],
                       inl (Uncaught e))
                  | inr ms =>
                      ([StdinRead; CallDictionary (dict_args_of ns);
                        CallCreate; CallTokenize (strip stdin) sm;
                        StdoutWrite (dumps (PList (build_payload ms)));
                        StdoutWrite [10]], inr tt)
                  end
              end
          end
      end.
Proof.
  destruct (whitespace_only stdin) eqn:Hw; [apply main_body_blank, Hw |].
  unfold main_body; simpl.
  destruct (truthy (strip stdin)) eqn:E.
  - simpl.
    destruct (Dictionary lib (dict_args_of ns)) as [e|d]; simpl;
      [reflexivity |].
    destruct (create lib d) as [e|tk]; simpl; [reflexivity |].
    destruct (getattr_SplitMode (mode ns)) as [e|sm]; simpl; [reflexivity |].
    destruct (tokenize lib tk (strip stdin) sm) as [e|ms]; reflexivity.
  - apply truthy_false_iff, strip_nil_iff in E; congruence.
Qed.

Ltac library_cases :=
  repeat match goal with
         | |- context [call _ ?r] => destruct r; simpl
         | |- context [eval ?r] => destruct r; simpl
         end.

Lemma main_body_no_stderr lib ns stdin :
  filter is_stderr_write (fst (main_body lib ns stdin)) = [].
Proof.
  unfold main_body; simpl.
  destruct (truthy (strip stdin)); simpl; [|reflexivity].
  library_cases; reflexivity.
Qed.

Lemma finish_fst p : fst (finish p) = fst p.
Proof. destruct p as [t [s|u]]; reflexivity. Qed.

(** ** The claims *)

(** C1.  When the library imports and the command line is accepted, a
    standard input that is empty or holds whitespace only makes the script
    read it, print the line [[]] and end with status 0; no call into the
    tokenizer library is made. *)
Theorem empty_input_prints_empty_array pf lib argv stdin ns :
  parser_parse_args (negative_number_matcher pf) argv = Parsed ns ->
  whitespace_only stdin = true ->
  script pf (inr lib) argv stdin
  = ([StdinRead; StdoutWrite (lit "[]"); StdoutWrite [10]], Exit 0)
  /\ stdout_of (fst (script pf (inr lib) argv stdin)) = lit "[]" ++ [10]
  /\ is_success (snd (script pf (inr lib) argv stdin)) = true
  /\ filter is_library_call (fst (script pf (inr lib) argv stdin)) = [].
Proof.
  intros Hp Hw.
  rewrite (script_parsed pf lib argv stdin ns Hp).
  rewrite (main_body_blank lib ns stdin Hw).
  repeat split.
Qed.

Lemma empty_input_prints_empty_array_witness :
  (parser_parse_args (negative_number_matcher example_platform) []
   = Parsed defaults
   /\ whitespace_only [10] = true)
  /\ script example_platform (inr char_tokenizer) [] [10]
     = ([StdinRead; StdoutWrite (lit "[]"); StdoutWrite [10]], Exit 0).
Proof.
  split; [split; reflexivity |].
  apply (empty_input_prints_empty_array example_platform char_tokenizer []
           [10] defaults); reflexivity.
Defined.

(** C3.  When importing the tokenizer library raises [ImportError], the
    script writes one diagnostic to standard error, the line that says
    that SudachiPy is not installed and names the setup command, and
    exits with status 1; nothing is written to standard output, whatever
    the command line and the standard input are. *)
Theorem missing_dependency_reported pf argv stdin :
  script pf (inl ImportError) argv stdin
  = ([StderrWrite
        (lit "SudachiPy is not installed. Run pnpm run sudachi:setup before using this script."
         ++ [10])],
     Exit 1)
  /\ stdout_of (fst (script pf (inl ImportError) argv stdin)) = []
  /\ stderr_of (fst (script pf (inl ImportError) argv stdin))
     = lit "SudachiPy is not installed. Run pnpm run sudachi:setup before using this script."
       ++ [10]
  /\ filter is_stdin_read (fst (script pf (inl ImportError) argv stdin)) = []
  /\ filter is_library_call (fst (script pf (inl ImportError) argv stdin))
     = [].
Proof. repeat split. Qed.

Lemma error_line_truthy (p m : pystr) :
  truthy (p ++ lit ": error: " ++ m ++ [10]) = true.
Proof. destruct p; reflexivity. Qed.

Lemma script_not_parsed pf lib argv stdin :
  match parser_parse_args (negative_number_matcher pf) argv with
  | Parsed _ => True
  | ExitHelp =>
      script pf (inr lib) argv stdin
      = ((if truthy (format_help pf) then [StdoutWrite (format_help pf)]
          else []), Exit 0)
  | ExitError e =>
      script pf (inr lib) argv stdin
      = ((if truthy (format_usage pf) then [StderrWrite (format_usage pf)]
          else [])
         ++ [StderrWrite (prog pf ++ lit ": error: " ++ error_message pf e
                          ++ [10])],
         Exit 2)
  end.
Proof.
  unfold script, main, parse_args.
  destruct (parser_parse_args (negative_number_matcher pf) argv) as [ns| |e];
    [exact I | |].
  - unfold _print_message; destruct (truthy (format_help pf)); reflexivity.
  - unfold parser_error, parser_exit, _print_message.
    rewrite error_line_truthy.
    destruct (truthy (format_usage pf)); reflexivity.
Qed.

Lemma _parse_optional_CA nn v s :
  _parse_optional nn v = inr (CA s) -> s = v.
Proof.
  unfold _parse_optional.
  destruct v as [|c0 rest]; [intros [= <-]; reflexivity |].
  destruct (negb (c0 =? dash)); [intros [= <-]; reflexivity |].
  destruct (lookup (c0 :: rest) option_string_actions); [discriminate |].
  destruct rest as [|c1 rest]; [intros [= <-]; reflexivity |].
  cbv zeta.
  destruct (split1 equals (c0 :: c1 :: rest)) as [[os ex]|];
    [destruct (lookup os option_string_actions); [discriminate |] |];
    (destruct (_get_option_tuples (c0 :: c1 :: rest))
       as [|[[a os'] e'] [|? ?]];
     [ destruct (nn (c0 :: c1 :: rest)); [intros [= <-]; reflexivity |];
       destruct (contains space (c0 :: c1 :: rest));
         [intros [= <-]; reflexivity | discriminate]
     | discriminate | discriminate ]).
Qed.



(** C6.  The check of the mode has a gap at the explicit value [--].
    The string is not among the choices, yet for [--mode=--] the parser
    returns a namespace, with the empty list as [mode].  On an input that
    is not blank the script then builds the dictionary and creates the
    tokenizer, and only the lookup of the split mode, after both, raises
    [TypeError]: the run ends with an uncaught exception and not with the
    usage error of status 2. *)
Theorem mode_double_dash_reaches_tokenizer pf lib stdin :
  in_choices (lit "--") mode_choices = false
  /\ parser_parse_args (negative_number_matcher pf) [lit "--mode=--"]
     = Parsed {| mode := EmptyList; config := None |}
  /\ script pf (inr lib) [lit "--mode=--"] stdin
     = (if whitespace_only stdin
        then ([StdinRead; StdoutWrite (lit "[]"); StdoutWrite [10]], Exit 0)
        else
          match Dictionary lib [] with
          | inl e => ([StdinRead; CallDictionary []], Uncaught e)
          | inr d =>
              match create lib d with
              | inl e =>
                  ([StdinRead; CallDictionary []; CallCreate], Uncaught e)
              | inr _ =>
                  ([StdinRead; CallDictionary []; CallCreate],
                   Uncaught TypeError)
              end
          end)
  /\ script example_platform (inr char_tokenizer) [lit "--mode=--"] tokyo
     = ([StdinRead; CallDictionary []; CallCreate], Uncaught TypeError).
Proof.
  split; [reflexivity |].
  split; [reflexivity |].
  split; [|reflexivity].
  rewrite (script_parsed pf lib [lit "--mode=--"] stdin
             {| mode := EmptyList; config := None |} eq_refl).
  rewrite main_body_cases; cbn [dict_args_of config mode getattr_SplitMode].
  destruct (whitespace_only stdin); [reflexivity |].
  destruct (Dictionary lib []) as [e|d]; [reflexivity |].
  destruct (create lib d); reflexivity.
Qed.

(** C7, as the specification states it, fails: the library imports, the
    command line names a mode outside the choices, and the argument parser
    writes its usage and error lines to standard error before exiting
    with status 2. *)
Lemma stderr_written_for_invalid_mode :
  existsb is_stderr_write
    (fst (script example_platform (inr char_tokenizer)
            [lit "--mode"; lit "D"] tokyo)) = true
  /\ stderr_of
       (fst (script example_platform (inr char_tokenizer)
               [lit "--mode"; lit "D"] tokyo))
     = format_usage example_platform
       ++ lit "sudachi_tokenize.py: error: argument --mode: invalid choice"
       ++ [10]
  /\ snd (script example_platform (inr char_tokenizer)
            [lit "--mode"; lit "D"] tokyo) = Exit 2.
Proof. repeat split. Qed.

(** C7, amended.  With the library imported, standard error is written
    to exactly when the argument parser rejects the command line: then
    the script writes the usage text and the error line and exits with
    status 2.  When the parser returns a namespace or prints the help, no
    write to standard error is made by the script.  Without the library,
    the only write is the diagnostic of the guarded import. *)
Theorem stderr_only_for_rejected_command_line pf lib argv stdin :
  match parser_parse_args (negative_number_matcher pf) argv with
  | ExitError e =>
      script pf (inr lib) argv stdin
      = ((if truthy (format_usage pf) then [StderrWrite (format_usage pf)]
          else [])
         ++ [StderrWrite (prog pf ++ lit ": error: " ++ error_message pf e
                          ++ [10])],
         Exit 2)
      /\ stdout_of (fst (script pf (inr lib) argv stdin)) = []
  | _ => filter is_stderr_write (fst (script pf (inr lib) argv stdin)) = []
  end
  /\ (forall e,
        filter is_stderr_write (fst (script pf (inl e) argv stdin))
        = if is_ImportError e
          then [StderrWrite missing_dependency_message] else []).
Proof.
  split; [| intros e; simpl; destruct (is_ImportError e); reflexivity].
  pose proof (script_not_parsed pf lib argv stdin) as H.
  destruct (parser_parse_args (negative_number_matcher pf) argv)
    as [ns| |e] eqn:E.
  - rewrite (script_parsed pf lib argv stdin ns E), finish_fst.
    apply main_body_no_stderr.
  - rewrite H; destruct (truthy (format_help pf)); reflexivity.
  - rewrite H; split; [reflexivity |].
    destruct (truthy (format_usage pf)); reflexivity.
Qed.

(** C8.  On an input that is empty or holds whitespace only the script
    makes no call into the library, so the run prints [[]] and succeeds
    even when constructing the dictionary for the given [--config] would
    raise; on any other input the same command line ends with that
    exception. *)
Theorem empty_input_never_builds_tokenizer pf lib argv blank text ns e :
  parser_parse_args (negative_number_matcher pf) argv = Parsed ns ->
  Dictionary lib (dict_args_of ns) = inl e ->
  whitespace_only blank = true ->
  whitespace_only text = false ->
  filter is_library_call (fst (script pf (inr lib) argv blank)) = []
  /\ stdout_of (fst (script pf (inr lib) argv blank)) = lit "[]" ++ [10]
  /\ snd (script pf (inr lib) argv blank) = Exit 0
  /\ script pf (inr lib) argv text
     = ([StdinRead; CallDictionary (dict_args_of ns)], Uncaught e).
Proof.
  intros Hp Hd Hb Ht.
  rewrite !(script_parsed pf lib argv _ ns Hp).
  rewrite (main_body_blank lib ns blank Hb).
  repeat split.
  unfold main_body; simpl.
  destruct (truthy (strip text)) eqn:E.
  - simpl; rewrite Hd; reflexivity.
  - apply truthy_false_iff, strip_nil_iff in E; congruence.
Qed.

Lemma empty_input_never_builds_tokenizer_witness :
  (parser_parse_args (negative_number_matcher example_platform)
     [lit "--config"; missing_config]
   = Parsed {| mode := Str (lit "C"); config := Some (Str missing_config) |}
   /\ Dictionary no_config_file
        (dict_args_of
           {| mode := Str (lit "C"); config := Some (Str missing_config) |})
      = inl (OtherError (lit "FileNotFoundError"))
   /\ whitespace_only [32; 10; 0x3000] = true
   /\ whitespace_only tokyo = false)
  /\ snd (script example_platform (inr no_config_file)
            [lit "--config"; missing_config] [32; 10; 0x3000]) = Exit 0.
Proof.
  split; [repeat split |].
  apply (empty_input_never_builds_tokenizer example_platform no_config_file
           [lit "--config"; missing_config] [32; 10; 0x3000] tokyo
           {| mode := Str (lit "C"); config := Some (Str missing_config) |}
           (OtherError (lit "FileNotFoundError")));
    reflexivity.
Defined.

(** C10.  [--config] with the empty string, written as two arguments or
    as [--config=], in front of any command line gives the run of that
    command line alone: [dict_args] stays empty, so no [config_path]
    reaches the dictionary constructor. *)
Theorem empty_config_same_as_omitted pf sudachipy argv stdin :
  script pf sudachipy (lit "--config" :: [] :: argv) stdin
  = script pf sudachipy argv stdin
  /\ script pf sudachipy (lit "--config=" :: argv) stdin
     = script pf sudachipy argv stdin
  /\ (forall m, dict_args_of {| mode := m; config := Some (Str []) |} = [])
  /\ (forall m, dict_args_of {| mode := m; config := None |} = []).
Proof.
  assert (Hrel : forall l : list pystr,
            result_rel same_for_main
              (parser_parse_args (negative_number_matcher pf) argv)
              (parser_parse_args (negative_number_matcher pf) (l ++ argv)) ->
            script pf sudachipy (l ++ argv) stdin
            = script pf sudachipy argv stdin).
  { intros l H; destruct sudachipy as [ex|lib]; [reflexivity |].
    unfold script, main, parse_args.
    destruct (parser_parse_args (negative_number_matcher pf) argv)
      as [m1| |e1];
      destruct (parser_parse_args (negative_number_matcher pf) (l ++ argv))
        as [m2| |e2]; simpl in H;
      try (destruct H as [H _]; first [discriminate H | injection H as <-]);
      try reflexivity.
    simpl; rewrite (main_body_same lib m1 m2 stdin H); reflexivity. }
  assert (Hcons : forall cs,
            result_rel same_for_main
              (consume cs defaults [])
              (consume cs {| mode := Str (lit "C"); config := Some (Str []) |} [])).
  { intros cs; apply consume_rel; [apply same_for_main_action |].
    split; reflexivity. }
  split; [| split; [| split; reflexivity]].
  - apply (Hrel [lit "--config"; []]).
    unfold parser_parse_args.
    assert (Hc : classify (negative_number_matcher pf)
                   ([lit "--config"; []] ++ argv)
                 = match classify (negative_number_matcher pf) argv with
                   | inl e => inl e
                   | inr cs =>
                       inr (CO (lit "--config") (Some StoreConfig)
                               (lit "--config") None :: CA [] :: cs)
                   end).
    { simpl; destruct (classify (negative_number_matcher pf) argv);
        reflexivity. }
    rewrite Hc.
    destruct (classify (negative_number_matcher pf) argv) as [e|cs];
      [apply result_rel_error | apply Hcons].
  - apply (Hrel [lit "--config="]).
    unfold parser_parse_args.
    assert (Hc : classify (negative_number_matcher pf)
                   ([lit "--config="] ++ argv)
                 = match classify (negative_number_matcher pf) argv with
                   | inl e => inl e
                   | inr cs =>
                       inr (CO (lit "--config=") (Some StoreConfig)
                               (lit "--config") (Some []) :: cs)
                   end) by reflexivity.
    rewrite Hc.
    destruct (classify (negative_number_matcher pf) argv) as [e|cs];
      [apply result_rel_error | apply Hcons].
Qed.

(** ** The printed JSON text *)

Lemma non_ascii_app (a b : pystr) :
  non_ascii (a ++ b) = non_ascii a ++ non_ascii b.
Proof. apply filter_app. Qed.

Lemma hex_digit_ascii (n : N) : n < 16 -> is_ascii (hex_digit n) = true.
Proof.
  intros H; unfold hex_digit, is_ascii.
  destruct (n <? 10); apply N.ltb_lt; lia.
Qed.

Lemma u_escape_ascii (c : N) : non_ascii (u_escape c) = [].
Proof.
  unfold u_escape, non_ascii; simpl.
  rewrite !hex_digit_ascii; [reflexivity | | | |];
    apply N.mod_lt; discriminate.
Qed.

(** An escape sequence holds ASCII characters only, and a character
    outside ASCII is never replaced. *)
Lemma non_ascii_replace (c : N) :
  non_ascii (replace c) = if is_ascii c then [] else [c].
Proof.
  unfold replace, ESCAPE, ESCAPE_DCT, is_ascii.
  destruct (N.eqb_spec c 92) as [->|H92]; [reflexivity |].
  destruct (N.eqb_spec c 34) as [->|H34]; [reflexivity |].
  destruct (N.eqb_spec c 8) as [->|H8]; [reflexivity |].
  destruct (N.eqb_spec c 12) as [->|H12]; [reflexivity |].
  destruct (N.eqb_spec c 10) as [->|H10]; [reflexivity |].
  destruct (N.eqb_spec c 13) as [->|H13]; [reflexivity |].
  destruct (N.eqb_spec c 9) as [->|H9]; [reflexivity |].
  rewrite !orb_false_r.
  destruct (N.leb_spec c 0x1f) as [Hle|Hgt].
  - assert (Hlt : (c <? 0x20) = true) by (apply N.ltb_lt; lia).
    assert (Ha : (c <? 0x80) = true) by (apply N.ltb_lt; lia).
    rewrite Hlt, Ha; apply u_escape_ascii.
  - unfold non_ascii, is_ascii; simpl.
    destruct (c <? 0x80); reflexivity.
Qed.

Lemma replace_non_ascii (c : N) : 0x80 <= c -> replace c = [c].
Proof.
  intros H; unfold replace, ESCAPE.
  assert (E : forall k, k < 0x80 -> (c =? k) = false)
    by (intros k Hk; apply N.eqb_neq; lia).
  assert (L : (c <=? 0x1f) = false) by (apply N.leb_gt; lia).
  rewrite L, !E by reflexivity; reflexivity.
Qed.

Lemma non_ascii_flat_map_replace (s : pystr) :
  non_ascii (flat_map replace s) = non_ascii s.
Proof.
  induction s as [|c s IH]; simpl; [reflexivity |].
  rewrite non_ascii_app, non_ascii_replace, IH.
  unfold non_ascii at 3; simpl.
  destruct (is_ascii c); reflexivity.
Qed.

Lemma non_ascii_encode (s : pystr) :
  non_ascii (py_encode_basestring s) = non_ascii s.
Proof.
  unfold py_encode_basestring.
  rewrite !non_ascii_app, non_ascii_flat_map_replace.
  simpl; apply app_nil_r.
Qed.

Lemma non_ascii_join (sep : pystr) (l : list pystr) :
  non_ascii sep = [] -> non_ascii (join sep l) = flat_map non_ascii l.
Proof.
  intros Hsep; induction l as [|x l IH]; [reflexivity |].
  destruct l as [|y l].
  - simpl; now rewrite app_nil_r.
  - change (join sep (x :: y :: l)) with (x ++ sep ++ join sep (y :: l)).
    rewrite !non_ascii_app, Hsep, IH; reflexivity.
Qed.

Lemma dumps_strings (l : list pystr) :
  map dumps (map PStr l) = map py_encode_basestring l.
Proof. rewrite map_map; reflexivity. Qed.


Lemma dumps_morpheme_entry (m : Morpheme) :
  dumps (morpheme_entry m) = entry_text m.
Proof.
  unfold morpheme_entry, entry_text.
  cbn [dumps map fst snd join].
  rewrite dumps_strings.
  repeat rewrite <- app_assoc; reflexivity.
Qed.

Lemma dumps_payload (ms : list Morpheme) :
  dumps (PList (build_payload ms))
  = lit "[" ++ join item_separator (map entry_text ms) ++ lit "]".
Proof.
  rewrite build_payload_map; cbn [dumps].
  rewrite map_map.
  rewrite (map_ext _ _ dumps_morpheme_entry); reflexivity.
Qed.

Lemma non_ascii_entry_text (m : Morpheme) :
  non_ascii (entry_text m) = morpheme_non_ascii m.
Proof.
  unfold entry_text, morpheme_non_ascii.
  rewrite !non_ascii_app, !non_ascii_encode.
  rewrite non_ascii_join by reflexivity.
  rewrite flat_map_concat_map, map_map.
  rewrite (map_ext _ _ non_ascii_encode), <- flat_map_concat_map.
  simpl; rewrite !app_nil_r; reflexivity.
Qed.

Lemma non_ascii_payload (ms : list Morpheme) :
  non_ascii (dumps (PList (build_payload ms)))
  = flat_map morpheme_non_ascii ms.
Proof.
  rewrite dumps_payload, !non_ascii_app.
  rewrite non_ascii_join by reflexivity.
  rewrite flat_map_concat_map, map_map.
  rewrite (map_ext _ _ non_ascii_entry_text), <- flat_map_concat_map.
  simpl; apply app_nil_r.
Qed.

(** ** Reading the printed text back *)

Lemma below_32 (P : N -> Prop) :
  (forall n : nat, (n < 32)%nat -> P (N.of_nat n)) ->
  forall c, c < 32 -> P c.
Proof.
  intros H c Hc; rewrite <- (N2Nat.id c); apply H.
  change 32%nat with (N.to_nat 32); lia.
Qed.


(** The reader undoes the replacement of one character. *)
Lemma scan_string_replace (c : N) (rest : pystr) :
  scan_string (replace c ++ rest) = scan_cons c (scan_string rest).
Proof.
  destruct (N.ltb_spec c 32) as [Hlt|Hge].
  - revert c Hlt; apply below_32; intros n Hn.
    do 32 (destruct n as [|n]; [reflexivity |]); lia.
  - destruct (N.eqb_spec c 92) as [->|H92]; [reflexivity |].
    destruct (N.eqb_spec c 34) as [->|H34]; [reflexivity |].
    assert (R : replace c = [c]).
    { unfold replace, ESCAPE.
      assert (E : forall k, k < 32 -> (c =? k) = false)
        by (intros k Hk; apply N.eqb_neq; lia).
      assert (L : (c <=? 0x1f) = false) by (apply N.leb_gt; lia).
      apply N.eqb_neq in H92, H34.
      rewrite L, H92, H34, !E by reflexivity; reflexivity. }
    rewrite R; simpl.
    apply N.eqb_neq in H92, H34; rewrite H92, H34; reflexivity.
Qed.

Lemma scan_string_encode (s rest : pystr) :
  scan_string (flat_map replace s ++ 34 :: rest) = Some (s, rest).
Proof.
  induction s as [|c s IH]; [reflexivity |].
  simpl flat_map; rewrite <- app_assoc, scan_string_replace, IH; reflexivity.
Qed.



Section ArrayRoundTrip.
Variable X : Type.
Variable enc : X -> pystr.
Variable read_item : pystr -> option (X * pystr).
Hypothesis read_enc :
  forall x rest, read_item (enc x ++ rest) = Some (x, rest).
Hypothesis enc_head :
  forall x rest, expect (lit "]") (enc x ++ rest) = None.


Lemma enc_nonempty (x : X) : (1 <= List.length (enc x))%nat.
Proof.
  pose proof (enc_head x (lit "]")) as H.
  destruct (enc x); [discriminate H | simpl; lia].
Qed.

Lemma join_length (l : list X) :
  (List.length l <= List.length (join item_separator (map enc l)))%nat.
Proof.
  induction l as [|x l IH]; [simpl; lia |].
  pose proof (enc_nonempty x) as Hx.
  destruct l as [|y l]; [simpl; lia |].
  change (join item_separator (map enc (x :: y :: l)))
    with (enc x ++ item_separator ++ join item_separator (map enc (y :: l))).
  rewrite !length_app; simpl in *; lia.
Qed.


End ArrayRoundTrip.




Lemma main_body_tokenized lib ns stdin ms :
  whitespace_only stdin = false ->
  tokenizes lib ns (strip stdin) ms ->
  exists sm,
    getattr_SplitMode (mode ns) = inr sm
    /\ main_body lib ns stdin
       = ([StdinRead; CallDictionary (dict_args_of ns); CallCreate;
           CallTokenize (strip stdin) sm;
           StdoutWrite (dumps (PList (build_payload ms)));
           StdoutWrite [10]], inr tt).
Proof.
  intros Hw (d & tk & sm & Hd & Hc & Hg & Ht).
  exists sm; split; [exact Hg |].
  unfold main_body; simpl.
  destruct (truthy (strip stdin)) eqn:E.
  - simpl; rewrite Hd; simpl; rewrite Hc; simpl; rewrite Hg; simpl.
    rewrite Ht; reflexivity.
  - apply truthy_false_iff, strip_nil_iff in E; congruence.
Qed.

Lemma script_tokenized pf lib argv stdin ns ms :
  parser_parse_args (negative_number_matcher pf) argv = Parsed ns ->
  whitespace_only stdin = false ->
  tokenizes lib ns (strip stdin) ms ->
  stdout_of (fst (script pf (inr lib) argv stdin))
  = dumps (PList (build_payload ms)) ++ [10]
  /\ snd (script pf (inr lib) argv stdin) = Exit 0.
Proof.
  intros Hp Hw Ht.
  destruct (main_body_tokenized lib ns stdin ms Hw Ht) as (sm & _ & Hm).
  rewrite (script_parsed pf lib argv stdin ns Hp), Hm.
  split; [|reflexivity].
  unfold finish, fst, stdout_of; cbn [flat_map].
  rewrite !app_nil_l, app_nil_r; reflexivity.
Qed.



(** C4.  In the text printed for the morphemes [ms], the characters
    outside ASCII are exactly those of the text fields of the morphemes,
    in the order of printing: each is printed as itself, since a
    character from [0x80] on is never replaced by an escape sequence and
    escape sequences are made of ASCII characters. *)
Theorem non_ascii_printed_literally pf lib argv stdin ns ms :
  parser_parse_args (negative_number_matcher pf) argv = Parsed ns ->
  whitespace_only stdin = false ->
  tokenizes lib ns (strip stdin) ms ->
  non_ascii (stdout_of (fst (script pf (inr lib) argv stdin)))
  = flat_map morpheme_non_ascii ms
  /\ (forall c, replace (0x80 + c) = [0x80 + c])
  /\ (forall c, non_ascii (replace c) = if is_ascii c then [] else [c])
  /\ (forall s, non_ascii (py_encode_basestring s) = non_ascii s).
Proof.
  intros Hp Hw Ht.
  destruct (script_tokenized pf lib argv stdin ns ms Hp Hw Ht) as [Ho _].
  split; [rewrite Ho, non_ascii_app, non_ascii_payload; apply app_nil_r |].
  split; [intros c; apply replace_non_ascii; lia |].
  split; [apply non_ascii_replace | apply non_ascii_encode].
Qed.

Lemma non_ascii_printed_literally_witness :
  (parser_parse_args (negative_number_matcher example_platform)
     [lit "--mode"; lit "A"]
   = Parsed {| mode := Str (lit "A"); config := None |}
   /\ whitespace_only tokyo = false
   /\ tokenizes char_tokenizer {| mode := Str (lit "A"); config := None |}
        (strip tokyo) (map char_morpheme tokyo))
  /\ non_ascii (stdout_of (fst (script example_platform (inr char_tokenizer)
                                  [lit "--mode"; lit "A"] tokyo)))
     = flat_map morpheme_non_ascii (map char_morpheme tokyo).
Proof.
  assert (Ht : tokenizes char_tokenizer
                 {| mode := Str (lit "A"); config := None |}
                 (strip tokyo) (map char_morpheme tokyo)).
  { exists tt, tt, SplitMode.A; repeat split. }
  split; [repeat split; exact Ht |].
  apply (non_ascii_printed_literally example_platform char_tokenizer
           [lit "--mode"; lit "A"] tokyo
           {| mode := Str (lit "A"); config := None |}
           (map char_morpheme tokyo) eq_refl eq_refl Ht).
Defined.

(** ** Reading the printed text as JSON *)

Lemma read_value_space (fuel : nat) (s : pystr) :
  read_value fuel (32 :: s) = read_value fuel s.
Proof. destruct fuel; reflexivity. Qed.

Lemma read_elements_space (fuel : nat) (s : pystr) :
  read_elements fuel (32 :: s) = read_elements fuel s.
Proof. destruct fuel as [|[|fuel]]; reflexivity. Qed.

Lemma read_members_space (fuel : nat) (s : pystr) :
  read_members fuel (32 :: s) = read_members fuel s.
Proof. destruct fuel; reflexivity. Qed.

Lemma read_value_string (fuel : nat) (s rest : pystr) :
  read_value (S fuel) (py_encode_basestring s ++ rest) = Some (PStr s, rest).
Proof.
  unfold py_encode_basestring.
  change (([34] ++ flat_map replace s ++ [34]) ++ rest)
    with (34 :: (flat_map replace s ++ [34]) ++ rest).
  rewrite <- app_assoc.
  change (read_value (S fuel) (34 :: flat_map replace s ++ [34] ++ rest))
    with (match scan_string (flat_map replace s ++ 34 :: rest) with
          | Some (str, r') => Some (PStr str, r')
          | None => None
          end).
  rewrite scan_string_encode; reflexivity.
Qed.

(** After a value: a comma and the next element, or the closing
    bracket. *)
Lemma read_elements_comma (fuel : nat) (v : pyval) (s r : pystr) :
  read_value fuel s = Some (v, item_separator ++ r) ->
  read_elements (S fuel) s
  = match read_elements fuel r with
    | Some (l, r') => Some (v :: l, r')
    | None => None
    end.
Proof.
  intros H.
  change (read_elements (S fuel) s)
    with (match read_value fuel s with
          | None => None
          | Some (v, r) =>
              match skip_ws r with
              | [] => None
              | c :: r' =>
                  if c =? 44 then
                    match read_elements fuel r' with
                    | Some (l, r'') => Some (v :: l, r'')
                    | None => None
                    end
                  else if c =? 93 then Some ([v], r')
                  else None
              end
          end).
  rewrite H.
  change (skip_ws (item_separator ++ r)) with (44 :: 32 :: r).
  cbv iota beta.
  change (44 =? 44) with true; cbv iota.
  rewrite read_elements_space; reflexivity.
Qed.

Lemma read_elements_close (fuel : nat) (v : pyval) (s r : pystr) :
  read_value fuel s = Some (v, 93 :: r) ->
  read_elements (S fuel) s = Some ([v], r).
Proof.
  intros H.
  change (read_elements (S fuel) s)
    with (match read_value fuel s with
          | None => None
          | Some (v, r) =>
              match skip_ws r with
              | [] => None
              | c :: r' =>
                  if c =? 44 then
                    match read_elements fuel r' with
                    | Some (l, r'') => Some (v :: l, r'')
                    | None => None
                    end
                  else if c =? 93 then Some ([v], r')
                  else None
              end
          end).
  rewrite H; reflexivity.
Qed.

(** A member: its key, the colon, its value, then a comma and the next
    member, or the closing brace. *)
Lemma read_members_step (fuel : nat) (key t : pystr) :
  read_members (S fuel) (py_encode_basestring key ++ key_separator ++ t)
  = match read_value fuel t with
    | None => None
    | Some (v, r3) =>
        match skip_ws r3 with
        | [] => None
        | c3 :: r4 =>
            if c3 =? 44 then
              match read_members fuel r4 with
              | Some (l, r5) => Some ((key, v) :: l, r5)
              | None => None
              end
            else if c3 =? 125 then Some ([(key, v)], r4)
            else None
        end
    end.
Proof.
  unfold py_encode_basestring.
  change (([34] ++ flat_map replace key ++ [34]) ++ key_separator ++ t)
    with (34 :: (flat_map replace key ++ [34]) ++ 58 :: 32 :: t).
  rewrite <- app_assoc.
  change (read_members (S fuel)
            (34 :: flat_map replace key ++ [34] ++ 58 :: 32 :: t))
    with (match scan_string (flat_map replace key ++ 34 :: 58 :: 32 :: t) with
          | None => None
          | Some (key, r1) =>
              match skip_ws r1 with
              | [] => None
              | c1 :: r2 =>
                  if c1 =? 58 then
                    match read_value fuel r2 with
                    | None => None
                    | Some (v, r3) =>
                        match skip_ws r3 with
                        | [] => None
                        | c3 :: r4 =>
                            if c3 =? 44 then
                              match read_members fuel r4 with
                              | Some (l, r5) => Some ((key, v) :: l, r5)
                              | None => None
                              end
                            else if c3 =? 125 then Some ([(key, v)], r4)
                            else None
                        end
                    end
                  else None
              end
          end).
  rewrite scan_string_encode.
  change (skip_ws (58 :: 32 :: t)) with (58 :: 32 :: t).
  cbv iota beta.
  change (58 =? 58) with true; cbv iota.
  rewrite read_value_space; reflexivity.
Qed.

Lemma read_members_comma (fuel : nat) (key t : pystr) (v : pyval)
    (r : pystr) :
  read_value fuel t = Some (v, item_separator ++ r) ->
  read_members (S fuel) (py_encode_basestring key ++ key_separator ++ t)
  = match read_members fuel r with
    | Some (l, r') => Some ((key, v) :: l, r')
    | None => None
    end.
Proof.
  intros H; rewrite read_members_step, H.
  change (skip_ws (item_separator ++ r)) with (44 :: 32 :: r).
  cbv iota beta.
  change (44 =? 44) with true; cbv iota.
  rewrite read_members_space; reflexivity.
Qed.

Lemma read_members_close (fuel : nat) (key t : pystr) (v : pyval)
    (r : pystr) :
  read_value fuel t = Some (v, lit "}" ++ r) ->
  read_members (S fuel) (py_encode_basestring key ++ key_separator ++ t)
  = Some ([(key, v)], r).
Proof. intros H; rewrite read_members_step, H; reflexivity. Qed.

(** An opening bracket or brace followed by something that is not the
    closing one. *)
Lemma read_value_open_array (fuel : nat) (c : N) (t t' : pystr) :
  t = c :: t' -> is_json_ws c = false -> (c =? 93) = false ->
  read_value (S fuel) (lit "[" ++ t)
  = match read_elements fuel t with
    | Some (l, r) => Some (PList l, r)
    | None => None
    end.
Proof.
  intros -> Hw Hc.
  change (read_value (S fuel) (lit "[" ++ c :: t'))
    with (match skip_ws (c :: t') with
          | [] => None
          | c' :: r' =>
              if c' =? 93 then Some (PList [], r')
              else match read_elements fuel (c :: t') with
                   | Some (l, r'') => Some (PList l, r'')
                   | None => None
                   end
          end).
  cbn [skip_ws]; rewrite Hw, Hc; reflexivity.
Qed.

Lemma read_value_open_object (fuel : nat) (c : N) (t t' : pystr) :
  t = c :: t' -> is_json_ws c = false -> (c =? 125) = false ->
  read_value (S fuel) (lit "{" ++ t)
  = match read_members fuel t with
    | Some (l, r) => Some (PDict l, r)
    | None => None
    end.
Proof.
  intros -> Hw Hc.
  change (read_value (S fuel) (lit "{" ++ c :: t'))
    with (match skip_ws (c :: t') with
          | [] => None
          | c' :: r' =>
              if c' =? 125 then Some (PDict [], r')
              else match read_members fuel (c :: t') with
                   | Some (l, r'') => Some (PDict l, r'')
                   | None => None
                   end
          end).
  cbn [skip_ws]; rewrite Hw, Hc; reflexivity.
Qed.

(** The elements of an array of strings. *)
Lemma read_elements_strings (l : list pystr) : forall x fuel rest,
  (List.length l + 2 <= fuel)%nat ->
  read_elements fuel
    (join item_separator (map py_encode_basestring (x :: l))
     ++ lit "]" ++ rest)
  = Some (map PStr (x :: l), rest).
Proof.
  induction l as [|y l IH]; intros x fuel rest Hf;
    (destruct fuel as [|[|fuel]]; [simpl in Hf; lia .. |]).
  - apply read_elements_close; apply read_value_string.
  - change (join item_separator (map py_encode_basestring (x :: y :: l)))
      with (py_encode_basestring x ++ item_separator
            ++ join item_separator (map py_encode_basestring (y :: l))).
    rewrite <- !app_assoc.
    rewrite (read_elements_comma _ (PStr x) _ _ (read_value_string _ _ _)).
    rewrite IH by (simpl in Hf; lia); reflexivity.
Qed.

Lemma read_value_strings (l : list pystr) (fuel : nat) (rest : pystr) :
  (List.length l + 2 <= fuel)%nat ->
  read_value (S fuel)
    (lit "[" ++ join item_separator (map py_encode_basestring l)
     ++ lit "]" ++ rest)
  = Some (PList (map PStr l), rest).
Proof.
  intros Hf; destruct l as [|x l]; [reflexivity |].
  assert (Hh : exists t',
             join item_separator (map py_encode_basestring (x :: l))
             ++ lit "]" ++ rest = 34 :: t')
    by (destruct l; eexists; reflexivity).
  destruct Hh as [t' Hh].
  rewrite (read_value_open_array _ 34 _ t' Hh eq_refl eq_refl).
  rewrite read_elements_strings by (simpl in Hf |- *; lia).
  reflexivity.
Qed.

Lemma entry_text_length (m : Morpheme) :
  (List.length (part_of_speech m) + 9 <= List.length (entry_text m))%nat.
Proof.
  pose proof (join_length _ py_encode_basestring (fun _ _ => eq_refl)
                (part_of_speech m)) as Hj.
  unfold entry_text.
  remember (join item_separator
              (map py_encode_basestring (part_of_speech m))) as J eqn:EJ.
  clear EJ; rewrite !length_app; simpl; lia.
Qed.

(** One printed element is read as the object it was printed from. *)
Lemma read_value_entry (m : Morpheme) (fuel : nat) (rest : pystr) :
  (List.length (entry_text m) <= fuel)%nat ->
  read_value fuel (entry_text m ++ rest) = Some (morpheme_entry m, rest).
Proof.
  intros Hf; pose proof (entry_text_length m) as Hl.
  destruct m as [sf df rf pos nf].
  cbn [part_of_speech] in Hl.
  remember (entry_text
              {| surface := sf; dictionary_form := df; reading_form := rf;
                 part_of_speech := pos; normalized_form := nf |}) as text
    eqn:Et.
  do 7 (destruct fuel as [|fuel]; [lia |]).
  assert (Hpos : (List.length pos + 2 <= S fuel)%nat) by lia.
  subst text.
  unfold entry_text, morpheme_entry;
    cbn [surface dictionary_form reading_form part_of_speech
         normalized_form].
  repeat rewrite <- app_assoc.
  erewrite (read_value_open_object _ 34); [| reflexivity ..].
  rewrite (read_members_comma _ _ _ (PStr sf) _ (read_value_string _ _ _)).
  rewrite (read_members_comma _ _ _ (PStr df) _ (read_value_string _ _ _)).
  rewrite (read_members_comma _ _ _ (PStr rf) _ (read_value_string _ _ _)).
  rewrite (read_members_comma _ _ _ (PList (map PStr pos)) _
             (read_value_strings pos _ _ Hpos)).
  rewrite (read_members_close _ _ _ (PStr nf) _ (read_value_string _ _ _)).
  reflexivity.
Qed.

(** The elements of the printed array. *)
Lemma read_elements_entries (ms : list Morpheme) : forall m fuel rest,
  (List.length (join item_separator (map entry_text (m :: ms))) < fuel)%nat ->
  read_elements fuel
    (join item_separator (map entry_text (m :: ms)) ++ lit "]" ++ rest)
  = Some (map morpheme_entry (m :: ms), rest).
Proof.
  induction ms as [|m' ms IH]; intros m fuel rest Hf;
    (destruct fuel as [|fuel]; [simpl in Hf; lia |]).
  - apply read_elements_close; apply read_value_entry.
    change (join item_separator (map entry_text [m])) with (entry_text m)
      in Hf.
    lia.
  - change (join item_separator (map entry_text (m :: m' :: ms)))
      with (entry_text m ++ item_separator
            ++ join item_separator (map entry_text (m' :: ms))) in *.
    rewrite !length_app in Hf.
    change (List.length item_separator) with 2%nat in Hf.
    assert (Hm : (List.length (entry_text m) <= fuel)%nat) by lia.
    rewrite <- !app_assoc.
    rewrite (read_elements_comma _ (morpheme_entry m) _ _
               (read_value_entry m _ _ Hm)).
    rewrite IH by lia; reflexivity.
Qed.

(** The printed array, read as JSON, is the array of the objects built
    from the morphemes. *)
Lemma json_loads_payload (ms : list Morpheme) :
  json_loads (dumps (PList (build_payload ms)))
  = Some (PList (map morpheme_entry ms)).
Proof.
  rewrite dumps_payload; unfold json_loads.
  destruct ms as [|m ms]; [reflexivity |].
  assert (Hh : exists t',
             join item_separator (map entry_text (m :: ms)) ++ lit "]"
             = 123 :: t')
    by (destruct ms; eexists; reflexivity).
  destruct Hh as [t' Hh].
  change (List.length
            (lit "[" ++ join item_separator (map entry_text (m :: ms))
             ++ lit "]"))
    with (S (List.length
               (join item_separator (map entry_text (m :: ms)) ++ lit "]"))).
  rewrite (read_value_open_array _ 123 _ t' Hh eq_refl eq_refl).
  rewrite <- (app_nil_r (lit "]")) at 2.
  rewrite read_elements_entries by (rewrite length_app; simpl; lia).
  reflexivity.
Qed.

Lemma morpheme_entry_shape (m : Morpheme) :
  is_morpheme_object (morpheme_entry m) = true.
Proof.
  unfold is_morpheme_object, morpheme_entry, field_is; simpl.
  induction (part_of_speech m) as [|p l IH]; [reflexivity | exact IH].
Qed.

(** C5.  The line the script prints is a JSON text, and read as JSON it
    is an array of which every element is an object with exactly the
    five fields [surface], [dictionaryForm], [reading], [partOfSpeech]
    and [normalizedForm], in this order; the [i]-th object holds the
    strings of the [i]-th morpheme, and its [partOfSpeech] is the array
    of the morpheme's part-of-speech strings: an array also when the
    morpheme has none, never [null] or a scalar. *)
Theorem every_element_has_five_fields pf lib argv stdin ns ms :
  parser_parse_args (negative_number_matcher pf) argv = Parsed ns ->
  whitespace_only stdin = false ->
  tokenizes lib ns (strip stdin) ms ->
  exists line elements,
    stdout_of (fst (script pf (inr lib) argv stdin)) = line ++ [10]
    /\ json_loads line = Some (PList elements)
    /\ List.length elements = List.length ms
    /\ forallb is_morpheme_object elements = true
    /\ (forall i,
          nth_error elements i
          = option_map
              (fun m =>
                 PDict [ (lit "surface", PStr (surface m));
                         (lit "dictionaryForm", PStr (dictionary_form m));
                         (lit "reading", PStr (reading_form m));
                         (lit "partOfSpeech",
                          PList (map PStr (part_of_speech m)));
                         (lit "normalizedForm", PStr (normalized_form m)) ])
              (nth_error ms i))
    /\ (forall v, In v elements ->
          exists items tags,
            v = PDict items
            /\ map fst items = five_fields
            /\ get (lit "partOfSpeech") items = Some (PList (map PStr tags))
            /\ field_is is_null_or_scalar (lit "partOfSpeech") items
               = false).
Proof.
  intros Hp Hw Ht.
  destruct (script_tokenized pf lib argv stdin ns ms Hp Hw Ht) as [Ho _].
  exists (dumps (PList (build_payload ms))), (map morpheme_entry ms).
  split; [exact Ho |].
  split; [apply json_loads_payload |].
  split; [apply length_map |].
  split; [| split].
  - rewrite forallb_forall; intros v Hv.
    apply in_map_iff in Hv; destruct Hv as (m & <- & _).
    apply morpheme_entry_shape.
  - intros i; apply nth_error_map.
  - intros v Hv; apply in_map_iff in Hv; destruct Hv as (m & <- & _).
    eexists; exists (part_of_speech m); repeat split.
Qed.

Lemma every_element_has_five_fields_witness :
  (parser_parse_args (negative_number_matcher example_platform)
     [lit "--mode=B"]
   = Parsed {| mode := Str (lit "B"); config := None |}
   /\ whitespace_only tokyo = false
   /\ tokenizes char_tokenizer {| mode := Str (lit "B"); config := None |}
        (strip tokyo) (map char_morpheme tokyo))
  /\ exists line elements,
       stdout_of (fst (script example_platform (inr char_tokenizer)
                         [lit "--mode=B"] tokyo))
       = line ++ [10]
       /\ json_loads line = Some (PList elements)
       /\ List.length elements = 6%nat
       /\ forallb is_morpheme_object elements = true.
Proof.
  assert (Ht : tokenizes char_tokenizer
                 {| mode := Str (lit "B"); config := None |}
                 (strip tokyo) (map char_morpheme tokyo)).
  { exists tt, tt, SplitMode.B; repeat split. }
  split; [repeat split; exact Ht |].
  destruct (every_element_has_five_fields example_platform char_tokenizer
              [lit "--mode=B"] tokyo
              {| mode := Str (lit "B"); config := None |}
              (map char_morpheme tokyo) eq_refl eq_refl Ht)
    as (line & elements & Ho & Hj & Hl & Hf & _).
  exists line, elements; repeat split; assumption.
Defined.

(** C9.  Two runs on the same command line and the same standard input
    write the same text to standard output as soon as the two tokenizer
    libraries give the same answer to the one request the script makes:
    the dictionary built from the keyword arguments of this command line,
    the trimmed input, the split mode of this command line.  What the
    libraries answer to any other request does not matter. *)
Theorem stdout_determined_by_morphemes pf lib1 lib2 argv stdin :
  (forall ns sm,
     parser_parse_args (negative_number_matcher pf) argv = Parsed ns ->
     whitespace_only stdin = false ->
     getattr_SplitMode (mode ns) = inr sm ->
     tokenizer_answer lib1 (dict_args_of ns) (strip stdin) sm
     = tokenizer_answer lib2 (dict_args_of ns) (strip stdin) sm) ->
  stdout_of (fst (script pf (inr lib1) argv stdin))
  = stdout_of (fst (script pf (inr lib2) argv stdin)).
Proof.
  intros H.
  pose proof (script_not_parsed pf lib1 argv stdin) as H1.
  pose proof (script_not_parsed pf lib2 argv stdin) as H2.
  destruct (parser_parse_args (negative_number_matcher pf) argv)
    as [ns| |e] eqn:E; [| rewrite H1, H2; reflexivity ..].
  rewrite !(script_parsed pf _ argv stdin ns E), !main_body_cases.
  destruct (whitespace_only stdin) eqn:Ew; [reflexivity |].
  pose proof (fun sm => H ns sm eq_refl eq_refl) as Ha.
  unfold tokenizer_answer in Ha.
  destruct (getattr_SplitMode (mode ns)) as [ex|sm].
  - destruct (Dictionary lib1 (dict_args_of ns)) as [?|d1];
      [|destruct (create lib1 d1)];
      (destruct (Dictionary lib2 (dict_args_of ns)) as [?|d2];
       [|destruct (create lib2 d2)]); reflexivity.
  - specialize (Ha sm eq_refl).
    destruct (Dictionary lib1 (dict_args_of ns)) as [?|d1];
      [|destruct (create lib1 d1) as [?|t1];
        [|destruct (tokenize lib1 t1 (strip stdin) sm)]];
      (destruct (Dictionary lib2 (dict_args_of ns)) as [?|d2];
       [|destruct (create lib2 d2) as [?|t2];
         [|destruct (tokenize lib2 t2 (strip stdin) sm)]]);
      first [reflexivity | discriminate Ha
            | injection Ha as ->; reflexivity].
Qed.

Lemma stdout_determined_by_morphemes_witness :
  (forall ns sm,
     parser_parse_args (negative_number_matcher example_platform)
       [lit "--mode"; lit "C"] = Parsed ns ->
     whitespace_only tokyo = false ->
     getattr_SplitMode (mode ns) = inr sm ->
     tokenizer_answer char_tokenizer_alt (dict_args_of ns) (strip tokyo) sm
     = tokenizer_answer default_only_tokenizer (dict_args_of ns)
         (strip tokyo) sm)
  /\ tokenizer_answer char_tokenizer_alt [] (strip tokyo) SplitMode.A
     <> tokenizer_answer default_only_tokenizer [] (strip tokyo) SplitMode.A
  /\ stdout_of (fst (script example_platform (inr char_tokenizer_alt)
                       [lit "--mode"; lit "C"] tokyo))
     = stdout_of (fst (script example_platform (inr default_only_tokenizer)
                         [lit "--mode"; lit "C"] tokyo)).
Proof.
  assert (H : forall ns sm,
             parser_parse_args (negative_number_matcher example_platform)
               [lit "--mode"; lit "C"] = Parsed ns ->
             whitespace_only tokyo = false ->
             getattr_SplitMode (mode ns) = inr sm ->
             tokenizer_answer char_tokenizer_alt (dict_args_of ns)
               (strip tokyo) sm
             = tokenizer_answer default_only_tokenizer (dict_args_of ns)
                 (strip tokyo) sm).
  { intros ns sm Hp _ Hg.
    vm_compute in Hp; injection Hp as <-.
    vm_compute in Hg; injection Hg as <-.
    reflexivity. }
  split; [exact H |].
  split; [discriminate |].
  apply (stdout_determined_by_morphemes example_platform char_tokenizer_alt
           default_only_tokenizer [lit "--mode"; lit "C"] tokyo H).
Defined.

(* ================================================================= *)
(** * Further properties of the script *)

Import Cli.

(** ** Trimming *)

Lemma lstrip_split (s : pystr) :
  exists pre, s = pre ++ lstrip s /\ whitespace_only pre = true.
Proof.
  induction s as [|c s (pre & Hs & Hp)]; [exists []; split; reflexivity |].
  simpl; destruct (isspace c) eqn:E.
  - exists (c :: pre); split; [simpl; rewrite <- Hs; reflexivity |].
    simpl; rewrite E; exact Hp.
  - exists []; split; reflexivity.
Qed.

Lemma rstrip_split (s : pystr) :
  exists post, s = rstrip s ++ post /\ whitespace_only post = true.
Proof.
  destruct (lstrip_split (rev s)) as (pre & Hs & Hp).
  exists (rev pre); split; [|rewrite whitespace_only_rev; exact Hp].
  unfold rstrip; rewrite <- rev_app_distr, <- Hs, rev_involutive; reflexivity.
Qed.

(** [strip] removes a run of whitespace at each end and nothing else. *)
Lemma strip_split (s : pystr) :
  exists pre post,
    s = pre ++ strip s ++ post
    /\ whitespace_only pre = true /\ whitespace_only post = true.
Proof.
  destruct (lstrip_split s) as (pre & Hs & Hp).
  destruct (rstrip_split (lstrip s)) as (post & Hl & Hq).
  exists pre, post; split; [|split; assumption].
  unfold strip; rewrite <- Hl; exact Hs.
Qed.

Lemma lstrip_head (s : pystr) :
  match lstrip s with [] => True | c :: _ => isspace c = false end.
Proof.
  induction s as [|c s IH]; simpl; [exact I |].
  destruct (isspace c) eqn:E; [exact IH | exact E].
Qed.

Lemma lstrip_app (a b : pystr) :
  lstrip (a ++ b) = match lstrip a with [] => lstrip b | _ :: _ => lstrip a ++ b end.
Proof.
  induction a as [|c a IH]; simpl; [destruct (lstrip b); reflexivity |].
  destruct (isspace c); [exact IH | reflexivity].
Qed.

Lemma lstrip_whitespace_app (a b : pystr) :
  whitespace_only a = true -> lstrip (a ++ b) = lstrip b.
Proof.
  intros H; apply lstrip_nil_iff in H; rewrite lstrip_app, H; reflexivity.
Qed.

Lemma rstrip_app_whitespace (a b : pystr) :
  whitespace_only b = true -> rstrip (a ++ b) = rstrip a.
Proof.
  intros H; unfold rstrip; rewrite rev_app_distr.
  rewrite lstrip_whitespace_app by (rewrite whitespace_only_rev; exact H).
  reflexivity.
Qed.

(** [rstrip] keeps the first character of a text that starts with a
    character that is not whitespace. *)
Lemma rstrip_keeps_head (c : N) (s : pystr) :
  isspace c = false -> exists t, rstrip (c :: s) = c :: t.
Proof.
  intros Hc; unfold rstrip; simpl rev.
  rewrite lstrip_app.
  destruct (lstrip (rev s)) as [|x l] eqn:E.
  - simpl; rewrite Hc; exists []; reflexivity.
  - rewrite rev_app_distr; simpl; eexists; reflexivity.
Qed.

Lemma rstrip_last (s : pystr) :
  match rev (rstrip s) with [] => True | c :: _ => isspace c = false end.
Proof. unfold rstrip; rewrite rev_involutive; apply lstrip_head. Qed.

Lemma strip_trimmed (s : pystr) : trimmed (strip s) = true.
Proof.
  unfold trimmed, strip; apply andb_true_iff; split.
  - pose proof (lstrip_head s) as Hh.
    destruct (lstrip s) as [|c l] eqn:E; [reflexivity |].
    destruct (rstrip_keeps_head c l Hh) as (t & ->).
    rewrite Hh; reflexivity.
  - pose proof (rstrip_last (lstrip s)) as Hl.
    destruct (rev (rstrip (lstrip s))); [reflexivity | rewrite Hl; reflexivity].
Qed.

(** Whitespace added in front of a text and after it does not change
    what [strip] returns. *)
Lemma strip_padding (a s b : pystr) :
  whitespace_only a = true -> whitespace_only b = true ->
  strip (a ++ s ++ b) = strip s.
Proof.
  intros Ha Hb; unfold strip.
  rewrite (lstrip_whitespace_app a (s ++ b) Ha), lstrip_app.
  destruct (lstrip s) as [|c l] eqn:E.
  - apply lstrip_nil_iff in Hb; rewrite Hb; reflexivity.
  - apply rstrip_app_whitespace, Hb.
Qed.

Lemma main_body_strip lib ns s1 s2 :
  strip s1 = strip s2 -> main_body lib ns s1 = main_body lib ns s2.
Proof. intros H; unfold main_body; simpl; rewrite H; reflexivity. Qed.

Lemma script_strip pf sudachipy argv s1 s2 :
  strip s1 = strip s2 ->
  script pf sudachipy argv s1 = script pf sudachipy argv s2.
Proof.
  intros H; destruct sudachipy as [e|lib]; [reflexivity |].
  unfold script, main.
  destruct (parse_args pf argv) as [t [st|ns]]; [reflexivity |].
  simpl; rewrite (main_body_strip lib ns s1 s2 H); reflexivity.
Qed.

(** X1.  Whitespace around the text on standard input is irrelevant: a
    run on the text with whitespace added in front and behind is the run
    on the text itself, event for event and with the same status. *)
Theorem surrounding_whitespace_is_ignored pf sudachipy argv a s b :
  whitespace_only a = true ->
  whitespace_only b = true ->
  script pf sudachipy argv (a ++ s ++ b) = script pf sudachipy argv s.
Proof.
  intros Ha Hb; apply script_strip, strip_padding; assumption.
Qed.

Lemma surrounding_whitespace_is_ignored_witness :
  (whitespace_only [0x3000; 32] = true /\ whitespace_only [13; 10] = true)
  /\ script example_platform (inr char_tokenizer) []
       ([0x3000; 32] ++ tokyo ++ [13; 10])
     = script example_platform (inr char_tokenizer) [] tokyo.
Proof.
  split; [split; reflexivity |].
  apply (surrounding_whitespace_is_ignored example_platform
           (inr char_tokenizer) [] [0x3000; 32] tokyo [13; 10]);
    reflexivity.
Defined.

(** ** The shape of a run *)

Lemma not_parsed_no_call pf lib argv stdin :
  (forall ns, parser_parse_args (negative_number_matcher pf) argv
              <> Parsed ns) ->
  forall ev, In ev (fst (script pf (inr lib) argv stdin)) ->
             is_library_call ev = false /\ is_stdin_read ev = false.
Proof.
  intros Hn ev.
  pose proof (script_not_parsed pf lib argv stdin) as H.
  destruct (parser_parse_args (negative_number_matcher pf) argv)
    as [ns| |e]; [exfalso; eapply Hn; reflexivity | |]; rewrite H.
  - destruct (truthy (format_help pf)); simpl; [|contradiction].
    intros [<- | []]; split; reflexivity.
  - destruct (truthy (format_usage pf)); simpl.
    + intros [<- | [<- | []]]; split; reflexivity.
    + intros [<- | []]; split; reflexivity.
Qed.

(** X2.  The text handed to [tokenize] is never empty and never starts or
    ends with whitespace: it is the standard input without the run of
    whitespace at each end, with everything between left as it is. *)
Theorem tokenizer_receives_trimmed_text pf lib argv stdin text sm :
  In (CallTokenize text sm) (fst (script pf (inr lib) argv stdin)) ->
  text = strip stdin
  /\ truthy text = true
  /\ trimmed text = true
  /\ exists pre post,
       stdin = pre ++ text ++ post
       /\ whitespace_only pre = true /\ whitespace_only post = true.
Proof.
  intros Hin.
  assert (Ht : text = strip stdin /\ whitespace_only stdin = false).
  { destruct (parser_parse_args (negative_number_matcher pf) argv)
      as [ns| |e] eqn:Ep.
    - rewrite (script_parsed pf lib argv stdin ns Ep), finish_fst in Hin.
      rewrite main_body_cases in Hin.
      destruct (whitespace_only stdin).
      { simpl in Hin; intuition discriminate. }
      destruct (Dictionary lib (dict_args_of ns)) as [?|d];
        [simpl in Hin; intuition discriminate |].
      destruct (create lib d) as [?|tk];
        [simpl in Hin; intuition discriminate |].
      destruct (getattr_SplitMode (mode ns)) as [?|sm'];
        [simpl in Hin; intuition discriminate |].
      destruct (tokenize lib tk (strip stdin) sm');
        simpl in Hin; intuition (try discriminate);
        match goal with
        | H : CallTokenize _ _ = CallTokenize _ _ |- _ =>
            injection H as <- <-; reflexivity
        end.
    - exfalso.
      destruct (not_parsed_no_call pf lib argv stdin) with
        (ev := CallTokenize text sm) as [Hc _];
        [intros ns; rewrite Ep; discriminate | exact Hin | discriminate Hc].
    - exfalso.
      destruct (not_parsed_no_call pf lib argv stdin) with
        (ev := CallTokenize text sm) as [Hc _];
        [intros ns; rewrite Ep; discriminate | exact Hin | discriminate Hc]. }
  destruct Ht as [-> Hw]; split; [reflexivity |].
  split.
  - destruct (truthy (strip stdin)) eqn:E; [reflexivity |].
    apply truthy_false_iff, strip_nil_iff in E; congruence.
  - split; [apply strip_trimmed | apply strip_split].
Qed.

Lemma tokenizer_receives_trimmed_text_witness :
  In (CallTokenize tokyo SplitMode.C)
     (fst (script example_platform (inr char_tokenizer) []
             ([32; 9] ++ tokyo ++ [10])))
  /\ tokyo = strip ([32; 9] ++ tokyo ++ [10]).
Proof.
  assert (Hin : In (CallTokenize tokyo SplitMode.C)
                   (fst (script example_platform (inr char_tokenizer) []
                           ([32; 9] ++ tokyo ++ [10])))).
  { right; right; right; left; reflexivity. }
  split; [exact Hin |].
  apply (tokenizer_receives_trimmed_text example_platform char_tokenizer []
           ([32; 9] ++ tokyo ++ [10]) tokyo SplitMode.C Hin).
Defined.

(** X3.  The script catches nothing after the import.  On an accepted
    command line and an input that is not blank, the first of the
    dictionary constructor, [create], the lookup of the split mode and
    [tokenize] that raises ends the run with that very exception, and
    nothing has been written to standard output or to standard error, so
    there is never a partial result; when none of them raises the run
    ends with status 0. *)
Theorem library_failure_leaves_no_output pf lib argv stdin ns :
  parser_parse_args (negative_number_matcher pf) argv = Parsed ns ->
  whitespace_only stdin = false ->
  match first_failure lib ns (strip stdin) with
  | Some e =>
      stdout_of (fst (script pf (inr lib) argv stdin)) = []
      /\ stderr_of (fst (script pf (inr lib) argv stdin)) = []
      /\ snd (script pf (inr lib) argv stdin) = Uncaught e
  | None =>
      snd (script pf (inr lib) argv stdin) = Exit 0
      /\ stderr_of (fst (script pf (inr lib) argv stdin)) = []
  end.
Proof.
  intros Hp Hw.
  rewrite (script_parsed pf lib argv stdin ns Hp), main_body_cases, Hw.
  unfold first_failure.
  destruct (Dictionary lib (dict_args_of ns)) as [e1|d]; [repeat split |].
  destruct (create lib d) as [e1|tk]; [repeat split |].
  destruct (getattr_SplitMode (mode ns)) as [e1|sm]; [repeat split |].
  destruct (tokenize lib tk (strip stdin) sm) as [e1|ms]; repeat split.
Qed.

Lemma library_failure_leaves_no_output_witness :
  (parser_parse_args (negative_number_matcher example_platform)
     [lit "--config"; missing_config]
   = Parsed {| mode := Str (lit "C"); config := Some (Str missing_config) |}
   /\ whitespace_only tokyo = false)
  /\ first_failure no_config_file
       {| mode := Str (lit "C"); config := Some (Str missing_config) |}
       (strip tokyo)
     = Some (OtherError (lit "FileNotFoundError"))
  /\ stdout_of (fst (script example_platform (inr no_config_file)
                       [lit "--config"; missing_config] tokyo)) = []
  /\ snd (script example_platform (inr no_config_file)
            [lit "--config"; missing_config] tokyo)
     = Uncaught (OtherError (lit "FileNotFoundError")).
Proof.
  split; [split; reflexivity |].
  split; [reflexivity |].
  pose proof (library_failure_leaves_no_output example_platform
                no_config_file [lit "--config"; missing_config] tokyo
                {| mode := Str (lit "C");
                   config := Some (Str missing_config) |}
                eq_refl eq_refl) as H.
  assert (Hf : first_failure no_config_file
                 {| mode := Str (lit "C");
                    config := Some (Str missing_config) |}
                 (strip tokyo)
               = Some (OtherError (lit "FileNotFoundError")))
    by reflexivity.
  rewrite Hf in H; destruct H as (Ho & _ & Hs).
  split; [exact Ho | exact Hs].
Defined.



(** ** The printed line *)

Lemma hex_digit_printable (n : N) : (0x20 <=? hex_digit n) = true.
Proof.
  unfold hex_digit; destruct (n <? 10); apply N.leb_le; lia.
Qed.

Lemma no_c0_app (a b : pystr) :
  no_c0_control (a ++ b) = no_c0_control a && no_c0_control b.
Proof. apply forallb_app. Qed.

(** Whatever [replace] puts for a character holds no C0 control
    character. *)
Lemma no_c0_replace (c : N) : no_c0_control (replace c) = true.
Proof.
  unfold replace, ESCAPE, ESCAPE_DCT.
  destruct (N.eqb_spec c 92) as [->|H92]; [reflexivity |].
  destruct (N.eqb_spec c 34) as [->|H34]; [reflexivity |].
  destruct (N.eqb_spec c 8) as [->|H8]; [reflexivity |].
  destruct (N.eqb_spec c 12) as [->|H12]; [reflexivity |].
  destruct (N.eqb_spec c 10) as [->|H10]; [reflexivity |].
  destruct (N.eqb_spec c 13) as [->|H13]; [reflexivity |].
  destruct (N.eqb_spec c 9) as [->|H9]; [reflexivity |].
  rewrite !orb_false_r.
  destruct (N.leb_spec c 0x1f) as [Hle|Hgt].
  - assert (Hlt : (c <? 0x20) = true) by (apply N.ltb_lt; lia).
    rewrite Hlt; unfold u_escape, no_c0_control; cbn [forallb].
    rewrite !hex_digit_printable; reflexivity.
  - unfold no_c0_control; cbn [forallb].
    assert (Hc : (0x20 <=? c) = true) by (apply N.leb_le; lia).
    rewrite Hc; reflexivity.
Qed.

Lemma no_c0_encode (s : pystr) :
  no_c0_control (py_encode_basestring s) = true.
Proof.
  unfold py_encode_basestring; rewrite !no_c0_app.
  assert (H : no_c0_control (flat_map replace s) = true).
  { induction s as [|c s IH]; [reflexivity |].
    simpl flat_map; rewrite no_c0_app, no_c0_replace, IH.
    reflexivity. }
  rewrite H; reflexivity.
Qed.

Lemma no_c0_join (sep : pystr) (l : list pystr) :
  no_c0_control sep = true ->
  forallb no_c0_control l = true ->
  no_c0_control (join sep l) = true.
Proof.
  intros Hsep; induction l as [|x l IH]; [reflexivity |].
  intros Hl; simpl in Hl; apply andb_true_iff in Hl; destruct Hl as [Hx Hl].
  destruct l as [|y l]; [exact Hx |].
  change (join sep (x :: y :: l)) with (x ++ sep ++ join sep (y :: l)).
  rewrite !no_c0_app, Hx, Hsep, (IH Hl); reflexivity.
Qed.

Lemma no_c0_entry_text (m : Morpheme) : no_c0_control (entry_text m) = true.
Proof.
  unfold entry_text.
  rewrite !no_c0_app, !no_c0_encode.
  rewrite no_c0_join; [reflexivity | reflexivity |].
  rewrite forallb_forall; intros x Hx.
  apply in_map_iff in Hx; destruct Hx as (s & <- & _).
  apply no_c0_encode.
Qed.

Lemma no_c0_payload (ms : list Morpheme) :
  no_c0_control (join item_separator (map entry_text ms)) = true.
Proof.
  apply no_c0_join; [reflexivity |].
  rewrite forallb_forall; intros x Hx.
  apply in_map_iff in Hx; destruct Hx as (m & <- & _).
  apply no_c0_entry_text.
Qed.

(** From DEL on, every code point is printed as it is: the controls
    above U+001F and the separators U+2028 and U+2029 are not escaped. *)
Lemma replace_from_del (c : N) : replace (0x7F + c) = [0x7F + c].
Proof.
  unfold replace, ESCAPE, ESCAPE_DCT.
  assert (H : forall k, k < 0x7F -> (0x7F + c =? k) = false)
    by (intros k Hk; apply N.eqb_neq; lia).
  rewrite !H by lia.
  assert (Hl : (0x7F + c <? 0x20) = false) by (apply N.ltb_ge; lia).
  rewrite Hl; destruct (0x7F + c <=? 0x1f); reflexivity.
Qed.

(** X5.  Standard output of an accepted command line is empty or ends
    with its only line feed: when the script succeeds it has written
    [[], the elements, []] and one line feed, and between the brackets
    there is no code point below U+0020, so no line feed, no carriage
    return and no tab, whatever the morphemes hold; when it does not
    succeed it has written nothing.  Code points from DEL on are not
    escaped: a next-line character U+0085 or a separator U+2028 or U+2029
    of a morpheme is printed as it is. *)
Theorem stdout_ends_with_its_only_line_feed pf lib argv stdin ns :
  parser_parse_args (negative_number_matcher pf) argv = Parsed ns ->
  (if is_success (snd (script pf (inr lib) argv stdin))
   then exists body,
          stdout_of (fst (script pf (inr lib) argv stdin))
          = lit "[" ++ body ++ lit "]" ++ [10]
          /\ no_c0_control body = true
          /\ ~ In 10 body /\ ~ In 13 body /\ ~ In 9 body
   else stdout_of (fst (script pf (inr lib) argv stdin)) = [])
  /\ (forall c, replace (0x7F + c) = [0x7F + c])
  /\ no_c0_control [0x7F; 0x85; 0x2028; 0x2029] = true.
Proof.
  intros Hp.
  split; [| split; [exact replace_from_del | reflexivity]].
  assert (Hin : forall body k,
             no_c0_control body = true -> k < 0x20 -> ~ In k body).
  { intros body k Hb Hk Hi.
    unfold no_c0_control in Hb; rewrite forallb_forall in Hb.
    apply Hb, N.leb_le in Hi; lia. }
  rewrite (script_parsed pf lib argv stdin ns Hp), main_body_cases.
  destruct (whitespace_only stdin).
  { exists []; repeat split; auto. }
  destruct (Dictionary lib (dict_args_of ns)) as [e|d]; [reflexivity |].
  destruct (create lib d) as [e|tk]; [reflexivity |].
  destruct (getattr_SplitMode (mode ns)) as [e|sm]; [reflexivity |].
  destruct (tokenize lib tk (strip stdin) sm) as [e|ms]; [reflexivity |].
  exists (join item_separator (map entry_text ms)).
  pose proof (no_c0_payload ms) as Hb.
  split; [| split; [exact Hb |
            repeat split; apply Hin; (exact Hb || lia)]].
  unfold finish, fst, snd, stdout_of; cbn [flat_map is_success].
  rewrite dumps_payload, !app_nil_r, <- !app_assoc; reflexivity.
Qed.

Lemma stdout_ends_with_its_only_line_feed_witness :
  parser_parse_args (negative_number_matcher example_platform) []
  = Parsed defaults
  /\ exists body,
       stdout_of (fst (script example_platform (inr char_tokenizer) []
                         [34; 10; 92; 9; 0x85; 0x2028]))
       = lit "[" ++ body ++ lit "]" ++ [10]
       /\ no_c0_control body = true
       /\ ~ In 10 body.
Proof.
  split; [reflexivity |].
  destruct (stdout_ends_with_its_only_line_feed example_platform
              char_tokenizer [] [34; 10; 92; 9; 0x85; 0x2028] defaults
              eq_refl) as [H _].
  destruct H as (body & Ho & Hb & Hn & _).
  exists body; split; [exact Ho | split; [exact Hb | exact Hn]].
Defined.

(** ** Options on the command line *)

Lemma getattr_mode_name (v : pystr) (sm : SplitMode.t) :
  getattr_SplitMode (Str v) = inr sm <-> v = mode_name sm.
Proof.
  unfold getattr_SplitMode; split.
  - destruct (PyStr.eqb v (lit "A")) eqn:EA;
      [apply eqb_eq in EA; intros [= <-]; exact EA |].
    destruct (PyStr.eqb v (lit "B")) eqn:EB;
      [apply eqb_eq in EB; intros [= <-]; exact EB |].
    destruct (PyStr.eqb v (lit "C")) eqn:EC;
      [apply eqb_eq in EC; intros [= <-]; exact EC | discriminate].
  - intros ->; destruct sm; reflexivity.
Qed.

(** X6.  The split mode named after [--mode], in either spelling of the
    option, is the constant [tokenize] is called with, and without the
    option it is [C]; the dictionary is then built without arguments. *)
Theorem chosen_mode_reaches_tokenizer pf lib sm stdin d tk ms :
  whitespace_only stdin = false ->
  Dictionary lib [] = inr d ->
  create lib d = inr tk ->
  tokenize lib tk (strip stdin) sm = inr ms ->
  fst (script pf (inr lib) [lit "--mode"; mode_name sm] stdin)
  = [StdinRead; CallDictionary []; CallCreate;
     CallTokenize (strip stdin) sm;
     StdoutWrite (dumps (PList (build_payload ms))); StdoutWrite [10]]
  /\ script pf (inr lib) [lit "--mode=" ++ mode_name sm] stdin
     = script pf (inr lib) [lit "--mode"; mode_name sm] stdin
  /\ (sm = SplitMode.C ->
      script pf (inr lib) [] stdin
      = script pf (inr lib) [lit "--mode"; mode_name sm] stdin).
Proof.
  intros Hw Hd Hc Ht.
  assert (Hp : forall nn,
            parser_parse_args nn [lit "--mode"; mode_name sm]
            = Parsed {| mode := Str (mode_name sm); config := None |})
    by (intros nn; destruct sm; reflexivity).
  assert (Hq : forall nn,
            parser_parse_args nn [lit "--mode=" ++ mode_name sm]
            = Parsed {| mode := Str (mode_name sm); config := None |})
    by (intros nn; destruct sm; reflexivity).
  rewrite (script_parsed pf lib _ stdin _ (Hp _)).
  rewrite (script_parsed pf lib _ stdin _ (Hq _)).
  split; [| split; [reflexivity |]].
  - rewrite main_body_cases, Hw; cbn [dict_args_of config mode].
    rewrite Hd, Hc.
    rewrite (proj2 (getattr_mode_name (mode_name sm) sm) eq_refl), Ht.
    reflexivity.
  - intros ->.
    rewrite (script_parsed pf lib [] stdin defaults eq_refl); reflexivity.
Qed.

Lemma chosen_mode_reaches_tokenizer_witness :
  (whitespace_only tokyo = false
   /\ Dictionary char_tokenizer [] = inr tt
   /\ create char_tokenizer tt = inr tt
   /\ tokenize char_tokenizer tt (strip tokyo) SplitMode.A
      = inr (map char_morpheme tokyo))
  /\ In (CallTokenize tokyo SplitMode.A)
        (fst (script example_platform (inr char_tokenizer)
                [lit "--mode"; lit "A"] tokyo)).
Proof.
  split; [repeat split |].
  destruct (chosen_mode_reaches_tokenizer example_platform char_tokenizer
              SplitMode.A tokyo tt tt (map char_morpheme tokyo)
              eq_refl eq_refl eq_refl eq_refl) as [H _].
  change (mode_name SplitMode.A) with (lit "A") in H.
  rewrite H; right; right; right; left; reflexivity.
Defined.

(** X7.  A configuration path given as [--config=PATH] is taken as it
    is, whatever characters it holds (the path [--] is left aside: older
    [argparse] releases read it differently), and, when it is not empty,
    handed to the dictionary constructor unchanged as the one keyword
    argument [config_path]; given as a separate argument, a path that
    does not start with [-] behaves the same. *)
Theorem config_path_passed_unchanged pf lib path stdin :
  truthy path = true ->
  PyStr.eqb path (lit "--") = false ->
  whitespace_only stdin = false ->
  parser_parse_args (negative_number_matcher pf) [lit "--config=" ++ path]
  = Parsed {| mode := Str (lit "C"); config := Some (Str path) |}
  /\ (exists rest st,
        script pf (inr lib) [lit "--config=" ++ path] stdin
        = (StdinRead :: CallDictionary [(lit "config_path", path)] :: rest,
           st))
  /\ (if startswith path (lit "-") then True
      else script pf (inr lib) [lit "--config"; path] stdin
           = script pf (inr lib) [lit "--config=" ++ path] stdin).
Proof.
  intros Hp Hne Hw.
  assert (Hq : forall nn,
            parser_parse_args nn [lit "--config=" ++ path]
            = Parsed {| mode := Str (lit "C"); config := Some (Str path) |}).
  { intros nn; unfold parser_parse_args.
    assert (Hc : classify nn [lit "--config=" ++ path]
                 = inr [CO (lit "--config=" ++ path) (Some StoreConfig)
                           (lit "--config") (Some path)]) by reflexivity.
    assert (He : consume_explicit StoreConfig (lit "--config") path []
                 = ExplicitDone [(StoreConfig, [path])])
      by (destruct path; reflexivity).
    rewrite Hc; cbn [consume]; rewrite He.
    cbn [take_actions take_action]; rewrite _get_values_config, Hne.
    reflexivity. }
  split; [apply Hq |].
  rewrite (script_parsed pf lib _ stdin _ (Hq _)).
  split.
  - rewrite main_body_cases, Hw.
    unfold dict_args_of; cbn [config]; rewrite Hp.
    destruct (Dictionary lib [(lit "config_path", path)]) as [e|d];
      [eexists; eexists; reflexivity |].
    destruct (create lib d) as [e|tk]; [eexists; eexists; reflexivity |].
    cbn [mode].
    rewrite (proj2 (getattr_mode_name (lit "C") SplitMode.C) eq_refl).
    destruct (tokenize lib tk (strip stdin) SplitMode.C);
      eexists; eexists; reflexivity.
  - destruct (startswith path (lit "-")) eqn:Es; [exact I |].
    assert (Hr : parser_parse_args (negative_number_matcher pf)
                   [lit "--config"; path]
                 = Parsed {| mode := Str (lit "C"); config := Some (Str path) |}).
    { unfold parser_parse_args.
      assert (Hv : _get_values StoreConfig path = inr (Str path))
        by (rewrite _get_values_config, Hne; reflexivity).
      destruct path as [|c path]; [discriminate Hp |].
      assert (Hd : (c =? dash) = false).
      { revert Es; unfold lit; simpl.
        destruct (N.eqb_spec c 45) as [->|Hn]; [destruct path; discriminate |].
        intros _; apply N.eqb_neq; exact Hn. }
      match goal with
      | |- match ?x with _ => _ end = _ =>
          assert (Hc : x = inr [CO (lit "--config") (Some StoreConfig)
                                   (lit "--config") None; CA (c :: path)])
      end.
      { cbn [classify].
        change (PyStr.eqb (lit "--config") (lit "--")) with false.
        assert (He : PyStr.eqb (c :: path) (lit "--") = false).
        { unfold lit; simpl; fold dash; rewrite Hd; reflexivity. }
        rewrite He; cbn [_parse_optional]; rewrite Hd; reflexivity. }
      rewrite Hc; cbn [consume nargs take_actions take_action app].
      rewrite Hv; reflexivity. }
    rewrite (script_parsed pf lib _ stdin _ Hr); reflexivity.
Qed.

Lemma config_path_passed_unchanged_witness :
  (truthy missing_config = true
   /\ PyStr.eqb missing_config (lit "--") = false
   /\ whitespace_only tokyo = false)
  /\ parser_parse_args (negative_number_matcher example_platform)
       [lit "--config=" ++ missing_config]
     = Parsed {| mode := Str (lit "C"); config := Some (Str missing_config) |}.
Proof.
  split; [repeat split |].
  apply (config_path_passed_unchanged example_platform no_config_file
           missing_config tokyo); reflexivity.
Defined.

(** X8.  [-h] or [--help] as the first argument wins over everything
    that follows it, invalid values and unknown options included: the
    script prints the help text to standard output and exits with status
    0 without reading its input; only an ambiguous abbreviation further
    on, which the parser finds before it acts on any option, is reported
    instead. *)
Theorem help_first_wins pf lib rest stdin :
  parser_parse_args (negative_number_matcher pf) (lit "-h" :: rest)
  = match classify (negative_number_matcher pf) rest with
    | inl e => ExitError e
    | inr _ => ExitHelp
    end
  /\ parser_parse_args (negative_number_matcher pf) (lit "--help" :: rest)
     = parser_parse_args (negative_number_matcher pf) (lit "-h" :: rest)
  /\ script pf (inr lib) (lit "--help" :: rest) stdin
     = script pf (inr lib) (lit "-h" :: rest) stdin
  /\ match classify (negative_number_matcher pf) rest with
     | inl e => True
     | inr _ =>
         script pf (inr lib) (lit "-h" :: rest) stdin
         = ((if truthy (format_help pf) then [StdoutWrite (format_help pf)]
             else []), Exit 0)
     end.
Proof.
  assert (H1 : parser_parse_args (negative_number_matcher pf)
                 (lit "-h" :: rest)
               = match classify (negative_number_matcher pf) rest with
                 | inl e => ExitError e
                 | inr _ => ExitHelp
                 end).
  { unfold parser_parse_args; cbn [classify].
    change (PyStr.eqb (lit "-h") (lit "--")) with false.
    change (_parse_optional (negative_number_matcher pf) (lit "-h"))
      with (@inr ArgumentError carg
              (CO (lit "-h") (Some HelpAction) (lit "-h") None)).
    cbv beta iota.
    destruct (classify (negative_number_matcher pf) rest); reflexivity. }
  assert (H2 : parser_parse_args (negative_number_matcher pf)
                 (lit "--help" :: rest)
               = parser_parse_args (negative_number_matcher pf)
                   (lit "-h" :: rest)).
  { rewrite H1; unfold parser_parse_args; cbn [classify].
    change (PyStr.eqb (lit "--help") (lit "--")) with false.
    change (_parse_optional (negative_number_matcher pf) (lit "--help"))
      with (@inr ArgumentError carg
              (CO (lit "--help") (Some HelpAction) (lit "--help") None)).
    cbv beta iota.
    destruct (classify (negative_number_matcher pf) rest); reflexivity. }
  split; [exact H1 |]; split; [exact H2 |]; split.
  - unfold script, main, parse_args; rewrite H2; reflexivity.
  - pose proof (script_not_parsed pf lib (lit "-h" :: rest) stdin) as Hs.
    rewrite H1 in Hs.
    destruct (classify (negative_number_matcher pf) rest);
      [exact I | exact Hs].
Qed.

(** ** Exit statuses *)

(** X9.  The exit statuses of the script have one meaning each: it calls
    [sys.exit(1)] exactly when the import raises [ImportError], it ends
    with status 2 exactly when the library imported and the parser
    rejected the command line, and it never exits with another non-zero
    status of its own: what remains is success or an uncaught
    exception. *)
Theorem exit_status_meaning pf sudachipy argv stdin :
  (snd (script pf sudachipy argv stdin) = Exit 1
   <-> exists e, sudachipy = inl e /\ is_ImportError e = true)
  /\ (snd (script pf sudachipy argv stdin) = Exit 2
      <-> exists lib,
            sudachipy = inr lib
            /\ is_rejected
                 (parser_parse_args (negative_number_matcher pf) argv)
               = true)
  /\ (forall n, snd (script pf sudachipy argv stdin) = Exit n ->
                n = 0 \/ n = 1 \/ n = 2).
Proof.
  destruct sudachipy as [e|lib].
  - simpl; destruct (is_ImportError e) eqn:E; simpl.
    + split; [split; [intros _; exists e; auto | reflexivity] |].
      split; [split; [discriminate | intros (l & Hl & _); discriminate] |].
      intros n [= <-]; auto.
    + split; [split; [discriminate |
                      intros (e' & [= <-] & He); congruence] |].
      split; [split; [discriminate | intros (l & Hl & _); discriminate] |].
      discriminate.
  - pose proof (script_not_parsed pf lib argv stdin) as Hs.
    destruct (parser_parse_args (negative_number_matcher pf) argv)
      as [ns| |err] eqn:Ep.
    + rewrite (script_parsed pf lib argv stdin ns Ep), main_body_cases.
      assert (Hst : forall (t : trace) (r : status + unit),
                (r = inr tt \/ exists x, r = inl (Uncaught x)) ->
                (snd (finish (t, r)) = Exit 1
                 <-> exists e, @inr PyExn Sudachi lib = inl e
                               /\ is_ImportError e = true)
                /\ (snd (finish (t, r)) = Exit 2
                    <-> exists lib0, @inr PyExn Sudachi lib = inr lib0
                                     /\ is_rejected (Parsed ns) = true)
                /\ (forall n, snd (finish (t, r)) = Exit n ->
                              n = 0 \/ n = 1 \/ n = 2)).
      { intros t r [-> | (x & ->)]; simpl;
          (split; [split; [discriminate |
                           intros (e & He & _); discriminate] |]);
          (split; [split; [discriminate |
                           intros (l & _ & Hl); discriminate] |]);
          [intros n [= <-]; auto | discriminate]. }
      destruct (whitespace_only stdin); [apply Hst; auto |].
      destruct (Dictionary lib (dict_args_of ns)) as [e|d];
        [apply Hst; eauto |].
      destruct (create lib d) as [e|tk]; [apply Hst; eauto |].
      destruct (getattr_SplitMode (mode ns)) as [e|sm]; [apply Hst; eauto |].
      destruct (tokenize lib tk (strip stdin) sm) as [e|ms];
        apply Hst; eauto.
    + rewrite Hs; simpl.
      split; [split; [discriminate | intros (e & He & _); discriminate] |].
      split; [split; [discriminate | intros (l & _ & Hl); discriminate] |].
      intros n [= <-]; auto.
    + rewrite Hs; simpl.
      split; [split; [discriminate | intros (e & He & _); discriminate] |].
      split; [split; [intros _; exists lib; auto | reflexivity] |].
      intros n [= <-]; auto.
Qed.

(** ** No positional arguments *)

Lemma stray_c_mono (cs : list carg) :
  stray_c true cs = true -> stray_c false cs = true.
Proof.
  destruct cs as [|[s | s | s [a|] os e] cs]; simpl; auto.
Qed.

(** The parser returns a namespace only when nothing is left over: no
    argument outside an option, no separator, no unknown option. *)
Lemma consume_parsed_no_stray : forall l ns extras ns',
  consume l ns extras = Parsed ns' ->
  extras = [] /\ stray_c false l = false.
Proof.
  intros l.
  assert (H : forall n l, (List.length l <= n)%nat -> forall ns extras ns',
             consume l ns extras = Parsed ns' ->
             extras = [] /\ stray_c false l = false).
  { clear l; induction n as [|n IH]; intros l Hlen ns extras ns'.
    - destruct l; [|simpl in Hlen; lia].
      simpl; destruct extras; [auto | discriminate].
    - destruct l as [|c l].
      + simpl; destruct extras; [auto | discriminate].
      + simpl in Hlen.
        assert (Hn : (List.length l <= n)%nat) by lia.
        assert (Hextra : forall s,
                  consume l ns (extras ++ [s]) = Parsed ns' -> False).
        { intros s Hc; destruct (IH l Hn _ _ _ Hc) as [He _].
          destruct extras; discriminate He. }
        cbn [consume].
        assert (noexp : forall a tuples,
          match nargs a with
          | 0 => match take_actions (tuples ++ [(a, [])]) ns with
                 | inl r => r | inr ns1 => consume l ns1 extras end
          | _ => match l with
                 | CA v :: l'' =>
                     match take_actions (tuples ++ [(a, [v])]) ns with
                     | inl r => r | inr ns1 => consume l'' ns1 extras end
                 | _ => ExitError (ExpectedOneArgument a)
                 end
          end = Parsed ns' ->
          extras = [] /\ stray_c true l = false).
        { intros a tuples; destruct (nargs a).
          - destruct (take_actions (tuples ++ [(a, [])]) ns) as [r|ns1] eqn:E.
            + intros ->; exfalso.
              eapply take_actions_not_parsed; eauto.
            + intros Hc; destruct (IH l Hn _ _ _ Hc) as [He Hs].
              split; [exact He |].
              destruct (stray_c true l) eqn:Et; [|reflexivity].
              rewrite (stray_c_mono l Et) in Hs; discriminate.
          - destruct l as [|[v | v | v o os e] l'']; try discriminate.
            destruct (take_actions (tuples ++ [(a, [v])]) ns)
              as [r|ns1] eqn:E.
            + intros ->; exfalso.
              eapply take_actions_not_parsed; eauto.
            + intros Hc.
              assert (Hn' : (List.length l'' <= n)%nat)
                by (simpl in Hn; lia).
              destruct (IH l'' Hn' _ _ _ Hc) as [He Hs].
              split; [exact He | exact Hs]. }
        destruct c as [s | s | s [a|] os [e|]];
          try (intros Hc; exfalso; eapply Hextra; exact Hc);
          [| apply (noexp a [])].
        destruct (consume_explicit a os e []) as [err | tuples | tuples a'];
          [discriminate | | apply noexp].
        destruct (take_actions tuples ns) as [r|ns1] eqn:E.
        * intros ->; exfalso; eapply take_actions_not_parsed; eauto.
        * intros Hc; destruct (IH l Hn _ _ _ Hc) as [He Hs].
          split; [exact He |].
          cbn [stray_c].
          destruct (stray_c true l) eqn:Et; [|reflexivity].
          rewrite (stray_c_mono l Et) in Hs; discriminate. }
  intros ns extras ns' Hc; eapply H; eauto.
Qed.

Lemma startswith_dash (c : N) (s : pystr) :
  startswith (c :: s) (lit "-") = (c =? dash).
Proof.
  change (lit "-") with [dash]; cbn [startswith].
  destruct s; apply andb_true_r.
Qed.

(** What [_parse_optional] takes for an option starts with [-]. *)
Lemma _parse_optional_option nn (s s' : pystr) a os e :
  _parse_optional nn s = inr (CO s' a os e) ->
  startswith s (lit "-") = true.
Proof.
  unfold _parse_optional.
  destruct s as [|c0 rest]; [discriminate |].
  rewrite startswith_dash.
  destruct (c0 =? dash); [reflexivity | discriminate].
Qed.

Lemma classify_stray nn (argv : list pystr) : forall cs after,
  classify nn argv = inr cs ->
  stray after argv = true
  \/ existsb (fun s => PyStr.eqb s (lit "--")) argv = true ->
  stray_c after cs = true.
Proof.
  induction argv as [|s argv IH]; intros cs after; simpl.
  - intros _ [H | H]; discriminate.
  - destruct (PyStr.eqb s (lit "--")) eqn:Es; [intros [= <-] _; reflexivity |].
    destruct (_parse_optional nn s) as [err|c] eqn:Ec; [discriminate |].
    destruct (classify nn argv) as [err|cs'] eqn:Ecs; [discriminate |].
    intros [= <-] H; simpl in H.
    destruct c as [v | v | v [a|] os e]; simpl; try reflexivity.
    + destruct (startswith s (lit "-")).
      * assert (Ht : stray_c true cs' = true) by (apply IH; tauto).
        rewrite (stray_c_mono cs' Ht); apply orb_true_r.
      * destruct H as [H | H].
        -- apply orb_true_iff in H; destruct H as [H | H];
             [rewrite H; reflexivity |].
           rewrite (IH cs' false eq_refl (or_introl H)); apply orb_true_r.
        -- rewrite (IH cs' false eq_refl (or_intror H)); apply orb_true_r.
    + rewrite (_parse_optional_option nn s v (Some a) os e Ec) in H.
      apply IH; [reflexivity | exact H].
Qed.

(** X10.  The script takes no positional arguments: a command line the
    parser accepts holds no [--], starts with an argument written like an
    option, and holds no argument that neither starts with [-] nor
    directly follows one that does; any other command line ends in the
    usage error or, when [-h] comes first, in the help. *)
Theorem no_positional_arguments nn argv ns :
  parser_parse_args nn argv = Parsed ns ->
  stray false argv = false
  /\ existsb (fun s => PyStr.eqb s (lit "--")) argv = false.
Proof.
  unfold parser_parse_args.
  destruct (classify nn argv) as [err|cs] eqn:Ec; [discriminate |].
  intros Hc; destruct (consume_parsed_no_stray cs _ _ _ Hc) as [_ Hs].
  split.
  - destruct (stray false argv) eqn:E; [|reflexivity].
    rewrite (classify_stray nn argv cs false Ec (or_introl E)) in Hs.
    discriminate.
  - destruct (existsb (fun s => PyStr.eqb s (lit "--")) argv) eqn:E;
      [|reflexivity].
    rewrite (classify_stray nn argv cs false Ec (or_intror E)) in Hs.
    discriminate.
Qed.

Lemma no_positional_arguments_witness :
  parser_parse_args ascii_negative_number
    [lit "--mode"; lit "B"; lit "--config"; lit "sudachi.json"]
  = Parsed {| mode := Str (lit "B");
              config := Some (Str (lit "sudachi.json")) |}
  /\ stray false [lit "--mode"; lit "B"; lit "--config"; lit "sudachi.json"]
     = false.
Proof.
  split; [reflexivity |].
  apply (no_positional_arguments ascii_negative_number
           [lit "--mode"; lit "B"; lit "--config"; lit "sudachi.json"]
           {| mode := Str (lit "B");
              config := Some (Str (lit "sudachi.json")) |}
           eq_refl).
Defined.

(** ** Spellings of the options *)

Lemma script_same_parse pf sudachipy argv1 argv2 stdin :
  parser_parse_args (negative_number_matcher pf) argv1
  = parser_parse_args (negative_number_matcher pf) argv2 ->
  script pf sudachipy argv1 stdin = script pf sudachipy argv2 stdin.
Proof.
  intros H; destruct sudachipy as [e|lib]; [reflexivity |].
  unfold script, main, parse_args; rewrite H; reflexivity.
Qed.

(** An option string that stands for [a] without an explicit value is
    read like any other spelling of [a]. *)
Lemma parse_option_spelling nn (p q v : pystr) (a : action) :
  PyStr.eqb p (lit "--") = false ->
  PyStr.eqb q (lit "--") = false ->
  (exists osp, _parse_optional nn p = inr (CO p (Some a) osp None)) ->
  (exists osq, _parse_optional nn q = inr (CO q (Some a) osq None)) ->
  parser_parse_args nn [p; v] = parser_parse_args nn [q; v].
Proof.
  intros Hp Hq (osp & Ep) (osq & Eq); unfold parser_parse_args.
  cbn [classify]; rewrite Hp, Hq, Ep, Eq.
  destruct (PyStr.eqb v (lit "--")); [reflexivity |].
  destruct (_parse_optional nn v) as [e|c]; reflexivity.
Qed.

(** X11.  Both options can be abbreviated to any prefix that is longer
    than [--]: with any value, the shortened spelling gives the run of
    the full spelling. *)
Theorem options_can_be_abbreviated pf sudachipy v stdin :
  Forall (fun p => script pf sudachipy [p; v] stdin
                   = script pf sudachipy [lit "--mode"; v] stdin)
         [lit "--m"; lit "--mo"; lit "--mod"]
  /\ Forall (fun p => script pf sudachipy [p; v] stdin
                      = script pf sudachipy [lit "--config"; v] stdin)
            [lit "--c"; lit "--co"; lit "--con"; lit "--conf"; lit "--confi"].
Proof.
  split.
  - repeat (apply Forall_cons;
            [apply script_same_parse,
               (parse_option_spelling _ _ _ _ StoreMode);
             try reflexivity; eexists; reflexivity |]).
    apply Forall_nil.
  - repeat (apply Forall_cons;
            [apply script_same_parse,
               (parse_option_spelling _ _ _ _ StoreConfig);
             try reflexivity; eexists; reflexivity |]).
    apply Forall_nil.
Qed.

(** X12.  When [--mode] is given twice, the later value is the one used,
    provided the earlier one is among the choices (an earlier value
    outside the choices is still an error); likewise a later [--config]
    replaces an earlier one. *)
Theorem later_option_replaces_earlier pf sudachipy v1 v2 rest stdin :
  in_choices v1 mode_choices = true ->
  startswith v2 (lit "-") = false ->
  script pf sudachipy
    (lit "--mode" :: v1 :: lit "--mode" :: v2 :: rest) stdin
  = script pf sudachipy (lit "--mode" :: v2 :: rest) stdin
  /\ script pf sudachipy
       ((lit "--config=" ++ v1) :: lit "--config" :: v2 :: rest) stdin
     = script pf sudachipy (lit "--config" :: v2 :: rest) stdin.
Proof.
  intros H1 H2.
  assert (Hv2 : forall nn, PyStr.eqb v2 (lit "--") = false
                           /\ _parse_optional nn v2 = inr (CA v2)).
  { intros nn; destruct v2 as [|c v2]; [split; reflexivity |].
    rewrite startswith_dash in H2; split.
    - unfold lit; simpl; fold dash; rewrite H2; reflexivity.
    - cbn [_parse_optional]; rewrite H2; reflexivity. }
  split; apply script_same_parse; unfold parser_parse_args.
  - apply in_choices_mode in H1.
    destruct (Hv2 (negative_number_matcher pf)) as [He Hc].
    assert (Hcl : forall v, v = lit "A" \/ v = lit "B" \/ v = lit "C" ->
              classify (negative_number_matcher pf)
                (lit "--mode" :: v :: lit "--mode" :: v2 :: rest)
              = match classify (negative_number_matcher pf) rest with
                | inl e => inl e
                | inr cs =>
                    inr (CO (lit "--mode") (Some StoreMode) (lit "--mode") None
                         :: CA v
                         :: CO (lit "--mode") (Some StoreMode) (lit "--mode")
                              None
                         :: CA v2 :: cs)
                end).
    { intros v [-> | [-> | ->]]; cbn [classify]; rewrite He, Hc;
        destruct (classify (negative_number_matcher pf) rest); reflexivity. }
    rewrite (Hcl v1 H1).
    assert (Hcr : classify (negative_number_matcher pf)
                    (lit "--mode" :: v2 :: rest)
                  = match classify (negative_number_matcher pf) rest with
                    | inl e => inl e
                    | inr cs =>
                        inr (CO (lit "--mode") (Some StoreMode) (lit "--mode")
                               None :: CA v2 :: cs)
                    end).
    { cbn [classify]; rewrite He, Hc;
        destruct (classify (negative_number_matcher pf) rest); reflexivity. }
    rewrite Hcr.
    destruct (classify (negative_number_matcher pf) rest) as [e|cs];
      [reflexivity |].
    destruct H1 as [-> | [-> | ->]]; cbn [consume nargs take_actions app];
      cbn [take_action];
      (change (in_choices (lit "A") mode_choices) with true
       || change (in_choices (lit "B") mode_choices) with true
       || change (in_choices (lit "C") mode_choices) with true);
      cbv beta iota;
      destruct (in_choices v2 mode_choices); reflexivity.
  - destruct (Hv2 (negative_number_matcher pf)) as [He Hc].
    assert (Hcl : classify (negative_number_matcher pf)
                    ((lit "--config=" ++ v1) :: lit "--config" :: v2 :: rest)
                  = match classify (negative_number_matcher pf) rest with
                    | inl e => inl e
                    | inr cs =>
                        inr (CO (lit "--config=" ++ v1) (Some StoreConfig)
                               (lit "--config") (Some v1)
                             :: CO (lit "--config") (Some StoreConfig)
                                  (lit "--config") None
                             :: CA v2 :: cs)
                    end).
    { cbn [classify].
      change (PyStr.eqb (lit "--config=" ++ v1) (lit "--")) with false.
      change (_parse_optional (negative_number_matcher pf)
                (lit "--config=" ++ v1))
        with (@inr ArgumentError carg
                (CO (lit "--config=" ++ v1) (Some StoreConfig)
                    (lit "--config") (Some v1))).
      cbv beta iota.
      change (PyStr.eqb (lit "--config") (lit "--")) with false.
      change (_parse_optional (negative_number_matcher pf) (lit "--config"))
        with (@inr ArgumentError carg
                (CO (lit "--config") (Some StoreConfig) (lit "--config")
                    None)).
      cbv beta iota; rewrite He, Hc.
      destruct (classify (negative_number_matcher pf) rest); reflexivity. }
    rewrite Hcl.
    assert (Hcr : classify (negative_number_matcher pf)
                    (lit "--config" :: v2 :: rest)
                  = match classify (negative_number_matcher pf) rest with
                    | inl e => inl e
                    | inr cs =>
                        inr (CO (lit "--config") (Some StoreConfig)
                               (lit "--config") None :: CA v2 :: cs)
                    end).
    { cbn [classify]; rewrite He, Hc;
        destruct (classify (negative_number_matcher pf) rest); reflexivity. }
    rewrite Hcr.
    destruct (classify (negative_number_matcher pf) rest) as [e|cs];
      [reflexivity |].
    assert (Hx : consume_explicit StoreConfig (lit "--config") v1 []
                 = ExplicitDone [(StoreConfig, [v1])])
      by (destruct v1; reflexivity).
    cbn [consume]; rewrite Hx.
    cbn [take_actions take_action nargs app].
    rewrite !_get_values_config; reflexivity.
Qed.

Lemma later_option_replaces_earlier_witness :
  (in_choices (lit "A") mode_choices = true
   /\ startswith (lit "B") (lit "-") = false)
  /\ script example_platform (inr char_tokenizer)
       [lit "--mode"; lit "A"; lit "--mode"; lit "B"] tokyo
     = script example_platform (inr char_tokenizer)
         [lit "--mode"; lit "B"] tokyo.
Proof.
  split; [split; reflexivity |].
  apply (later_option_replaces_earlier example_platform (inr char_tokenizer)
           (lit "A") (lit "B") [] tokyo); reflexivity.
Defined.

(** ** The check of the mode *)

Lemma take_actions_step_values (P : Namespace -> Prop)
    (Q : parse_result -> Prop) (okv : pystr -> bool) tuples ns
    (k : Namespace -> parse_result) :
  (forall ns1, P ns1 -> Q (k ns1)) ->
  (forall r, (forall ns', r <> Parsed ns') -> Q r) ->
  (forall a args ns0 ns1,
     tuple_values_ok okv (a, args) = true ->
     take_action a args ns0 = inr ns1 -> P ns0 -> P ns1) ->
  forallb (tuple_values_ok okv) tuples = true ->
  P ns ->
  Q (match take_actions tuples ns with inl r => r | inr ns1 => k ns1 end).
Proof.
  intros Hk Hq Hstep; revert ns.
  induction tuples as [|[a args] tuples IH]; intros ns Hok Hns; simpl.
  - apply Hk, Hns.
  - simpl in Hok; apply andb_true_iff in Hok; destruct Hok as [Ha Hok].
    destruct (take_action a args ns) as [r|ns1] eqn:E.
    + apply Hq; eapply take_action_not_parsed; eauto.
    + apply IH; [exact Hok | eapply Hstep; eauto].
Qed.

Lemma forallb_tuple_values_ok_snoc okv tuples a args :
  forallb (tuple_values_ok okv) tuples = true ->
  tuple_values_ok okv (a, args) = true ->
  forallb (tuple_values_ok okv) (tuples ++ [(a, args)]) = true.
Proof.
  intros Ht Ha; rewrite forallb_app, Ht; simpl; rewrite Ha; reflexivity.
Qed.

Lemma tuple_values_ok_none okv a : tuple_values_ok okv (a, []) = true.
Proof. unfold tuple_values_ok; apply orb_true_r. Qed.

Lemma tuple_values_ok_one okv a v :
  is_help_action a || okv v = true -> tuple_values_ok okv (a, [v]) = true.
Proof.
  unfold tuple_values_ok; cbn [fst snd forallb].
  rewrite andb_true_r; auto.
Qed.

(** The one argument string [consume_explicit] hands on is the explicit
    argument it starts from; after a single-dash option only the help
    follows. *)
Lemma consume_explicit_values_ok (okv : pystr -> bool) :
  forall e a os tuples,
    is_help_action a || okv e = true ->
    forallb (tuple_values_ok okv) tuples = true ->
    match consume_explicit a os e tuples with
    | ExplicitError _ => True
    | ExplicitDone t => forallb (tuple_values_ok okv) t = true
    | ExplicitPending t a' =>
        forallb (tuple_values_ok okv) t = true /\ a' = HelpAction
    end.
Proof.
  induction e as [|c tail IH]; intros a os tuples Ha Ht;
    cbn [consume_explicit].
  - destruct (nargs a =? 1); [|exact I].
    apply forallb_tuple_values_ok_snoc;
      [exact Ht | apply tuple_values_ok_one, Ha].
  - destruct ((nargs a =? 0)
              && match os with
                 | _ :: c1 :: _ => negb (c1 =? dash)
                 | _ => false
                 end).
    + destruct (lookup [dash; c] option_string_actions) as [a'|] eqn:El;
        [|exact I].
      apply lookup_short in El; subst a'.
      destruct tail as [|c' tail'].
      * split; [|reflexivity].
        apply forallb_tuple_values_ok_snoc;
          [exact Ht | apply tuple_values_ok_none].
      * apply IH; [reflexivity |].
        apply forallb_tuple_values_ok_snoc;
          [exact Ht | apply tuple_values_ok_none].
    + destruct (nargs a =? 1); [|exact I].
      apply forallb_tuple_values_ok_snoc;
        [exact Ht | apply tuple_values_ok_one, Ha].
Qed.

(** An invariant of the namespace that the actions keep on the argument
    strings of the command line holds of the namespace the parser
    returns. *)
Lemma consume_invariant_values (P : Namespace -> Prop)
    (okv : pystr -> bool) :
  (forall a args ns0 ns1,
     tuple_values_ok okv (a, args) = true ->
     take_action a args ns0 = inr ns1 -> P ns0 -> P ns1) ->
  forall l ns extras ns',
    forallb (carg_values_ok okv) l = true ->
    consume l ns extras = Parsed ns' -> P ns -> P ns'.
Proof.
  intros Hstep l.
  assert (H : forall n l, (List.length l <= n)%nat -> forall ns extras ns',
             forallb (carg_values_ok okv) l = true ->
             P ns -> consume l ns extras = Parsed ns' -> P ns').
  { clear l; induction n as [|n IH]; intros l Hlen ns extras ns' Hok Hns.
    - destruct l; [|simpl in Hlen; lia].
      simpl; destruct extras; [intros [= <-]; auto | discriminate].
    - destruct l as [|c l].
      + simpl; destruct extras; [intros [= <-]; auto | discriminate].
      + simpl in Hlen, Hok; apply andb_true_iff in Hok.
        destruct Hok as [Hc Hl].
        assert (Hn : (List.length l <= n)%nat) by lia.
        cbn [consume].
        assert (noexp : forall a tuples,
          forallb (tuple_values_ok okv) tuples = true ->
          match nargs a with
          | 0 => match take_actions (tuples ++ [(a, [])]) ns with
                 | inl r => r | inr ns1 => consume l ns1 extras end
          | _ => match l with
                 | CA v :: l'' =>
                     match take_actions (tuples ++ [(a, [v])]) ns with
                     | inl r => r | inr ns1 => consume l'' ns1 extras end
                 | _ => ExitError (ExpectedOneArgument a)
                 end
          end = Parsed ns' -> P ns').
        { intros a tuples Ht; destruct (nargs a).
          - apply (take_actions_step_values P
                     (fun r => r = Parsed ns' -> P ns') okv); auto.
            + intros ns1 H1 H2; eapply IH; eauto.
            + intros r Hr ->; exfalso; eapply Hr; reflexivity.
            + apply forallb_tuple_values_ok_snoc;
                [exact Ht | apply tuple_values_ok_none].
          - destruct l as [|[v | v | v o os e] l'']; try discriminate.
            simpl in Hl; apply andb_true_iff in Hl; destruct Hl as [Hv Hl].
            apply (take_actions_step_values P
                     (fun r => r = Parsed ns' -> P ns') okv); auto.
            + intros ns1 H1 H2; eapply (IH l''); eauto.
              simpl in Hn; lia.
            + intros r Hr ->; exfalso; eapply Hr; reflexivity.
            + apply forallb_tuple_values_ok_snoc; [exact Ht |].
              apply tuple_values_ok_one; rewrite Hv; apply orb_true_r. }
        destruct c as [s | s | s [a|] os [e|]];
          try (apply IH; assumption);
          [| apply (noexp a []); reflexivity].
        pose proof (consume_explicit_values_ok okv e a os [] Hc eq_refl)
          as He.
        destruct (consume_explicit a os e []) as [err | tuples | tuples a'];
          [discriminate | | destruct He; apply noexp; assumption].
        apply (take_actions_step_values P
                 (fun r => r = Parsed ns' -> P ns') okv); auto.
        * intros ns1 H1 H2; eapply IH; eauto.
        * intros r Hr ->; exfalso; eapply Hr; reflexivity. }
  intros ns extras ns' Hok Hc Hns; eapply H; eauto.
Qed.

(** Every tuple [_get_option_tuples] returns for a string that starts
    with [--] carries the explicit argument cut off at the first [=]; a
    single-dash string is only taken for the help. *)
Lemma _get_option_tuples_explicit (s os e : pystr) (a : action) :
  _get_option_tuples s = [(a, os, Some e)] ->
  a = HelpAction \/ exists p, split1 equals s = Some (p, e).
Proof.
  destruct s as [|c0 [|c1 rest]]; try discriminate.
  unfold _get_option_tuples.
  destruct ((c0 =? dash) && (c1 =? dash)).
  - destruct (split1 equals (c0 :: c1 :: rest)) as [[p e0]|].
    + unfold option_string_actions; cbn [flat_map fst snd].
      destruct (startswith (lit "-h") p);
        destruct (startswith (lit "--help") p);
        destruct (startswith (lit "--mode") p);
        destruct (startswith (lit "--config") p);
        cbn [app]; intros H; try discriminate H;
        injection H as _ _ ->; right; exists p; reflexivity.
    + unfold option_string_actions; cbn [flat_map fst snd].
      destruct (startswith (lit "-h") (c0 :: c1 :: rest));
        destruct (startswith (lit "--help") (c0 :: c1 :: rest));
        destruct (startswith (lit "--mode") (c0 :: c1 :: rest));
        destruct (startswith (lit "--config") (c0 :: c1 :: rest));
        cbn [app]; intros H; discriminate H.
  - destruct (c0 =? dash); [|discriminate].
    unfold option_string_actions; cbn [flat_map fst snd firstn skipn].
    assert (Hlong : forall x y z t,
              PyStr.eqb (x :: y :: z :: t) [c0; c1] = false).
    { intros x y z t; cbn [PyStr.eqb].
      destruct (x =? c0); destruct (y =? c1); reflexivity. }
    change (lit "--help") with [45; 45; 104; 101; 108; 112].
    change (lit "--mode") with [45; 45; 109; 111; 100; 101].
    change (lit "--config") with [45; 45; 99; 111; 110; 102; 105; 103].
    rewrite !Hlong.
    repeat match goal with
           | |- context [if ?b then _ else _] => destruct b
           end; cbn [app]; intros H; try discriminate H;
      injection H as <- _ _; left; reflexivity.
Qed.

(** Apart from the help, an option is handed an explicit argument only
    from the text after the first [=] of its argument string. *)
Lemma _parse_optional_values nn (s : pystr) (c : carg) :
  _parse_optional nn s = inr c ->
  PyStr.eqb s (lit "--") = false ->
  explicit_double_dash s = false ->
  carg_values_ok not_double_dash c = true.
Proof.
  intros Hp Hs Hx.
  destruct c as [v | v | v [a|] os [e|]]; try reflexivity.
  { apply _parse_optional_CA in Hp; subst v.
    unfold carg_values_ok, not_double_dash; rewrite Hs; reflexivity. }
  cbn [carg_values_ok].
  assert (Hsplit : forall p, split1 equals s = Some (p, e) ->
                             is_help_action a || not_double_dash e = true).
  { intros p Hp'; unfold explicit_double_dash in Hx; rewrite Hp' in Hx.
    unfold not_double_dash; rewrite Hx; apply orb_true_r. }
  revert Hp; unfold _parse_optional.
  destruct s as [|c0 rest]; [discriminate |].
  destruct (negb (c0 =? dash)); [discriminate |].
  destruct (lookup (c0 :: rest) option_string_actions); [discriminate |].
  destruct rest as [|c1 rest]; [discriminate |].
  cbv zeta.
  assert (Htuples :
    match _get_option_tuples (c0 :: c1 :: rest) with
    | [] =>
        if nn (c0 :: c1 :: rest) then inr (CA (c0 :: c1 :: rest))
        else if contains space (c0 :: c1 :: rest)
        then inr (CA (c0 :: c1 :: rest))
        else inr (CO (c0 :: c1 :: rest) None (c0 :: c1 :: rest) None)
    | [(a0, os0, e0)] => inr (CO (c0 :: c1 :: rest) (Some a0) os0 e0)
    | (_ :: _ :: _) as tuples =>
        inl (AmbiguousOption (c0 :: c1 :: rest)
               (map (fun t : option_tuple => snd (fst t)) tuples))
    end = inr (CO v (Some a) os (Some e)) ->
    is_help_action a || not_double_dash e = true).
  { destruct (_get_option_tuples (c0 :: c1 :: rest))
      as [|[[a0 os0] e0] [|? ?]] eqn:Et.
    - destruct (nn (c0 :: c1 :: rest)); [discriminate |].
      destruct (contains space (c0 :: c1 :: rest)); discriminate.
    - intros [= <- <- <- ->].
      destruct (_get_option_tuples_explicit _ _ _ _ Et) as [-> | [p Hp']];
        [reflexivity | eapply Hsplit; exact Hp'].
    - discriminate. }
  destruct (split1 equals (c0 :: c1 :: rest)) as [[os' ex]|] eqn:Es;
    [destruct (lookup os' option_string_actions) as [a'|] |];
    [| exact Htuples | exact Htuples].
  intros [= <- <- <- <-]; eapply Hsplit; reflexivity.
Qed.

Lemma classify_values_ok nn (argv : list pystr) : forall cs,
  classify nn argv = inr cs ->
  existsb (fun s => PyStr.eqb s (lit "--")) argv = false ->
  existsb explicit_double_dash argv = false ->
  forallb (carg_values_ok not_double_dash) cs = true.
Proof.
  induction argv as [|s argv IH]; intros cs; simpl.
  - intros [= <-]; reflexivity.
  - rewrite !orb_false_iff; intros Hc [Hs Hr] [Hx Hxr].
    rewrite Hs in Hc.
    destruct (_parse_optional nn s) as [err|c] eqn:Ec; [discriminate |].
    destruct (classify nn argv) as [err|cs'] eqn:Ecs; [discriminate |].
    injection Hc as <-; simpl.
    rewrite (_parse_optional_values nn s c Ec Hs Hx).
    apply IH; auto.
Qed.

(** A command line the parser accepts holds no [--]. *)
Lemma parsed_no_separator nn argv ns :
  parser_parse_args nn argv = Parsed ns ->
  existsb (fun s => PyStr.eqb s (lit "--")) argv = false.
Proof.
  unfold parser_parse_args.
  destruct (classify nn argv) as [err|cs] eqn:Ec; [discriminate |].
  intros Hc; destruct (consume_parsed_no_stray cs _ _ _ Hc) as [_ Hs].
  destruct (existsb (fun s => PyStr.eqb s (lit "--")) argv) eqn:E;
    [|reflexivity].
  rewrite (classify_stray nn argv cs false Ec (or_intror E)) in Hs.
  discriminate.
Qed.

Lemma take_action_values_checked a args ns0 ns1 :
  tuple_values_ok not_double_dash (a, args) = true ->
  take_action a args ns0 = inr ns1 ->
  values_checked ns0 -> values_checked ns1.
Proof.
  unfold tuple_values_ok, values_checked; cbn [fst snd].
  destruct a; cbn [take_action is_help_action orb]; [discriminate | |];
    (destruct args as [|v [|? ?]]; try (intros _ [= <-]; auto));
    cbn [forallb]; rewrite andb_true_r; unfold not_double_dash;
    intros Hv; apply negb_true_iff in Hv;
    unfold _get_values; cbn [choices_of]; rewrite Hv.
  - destruct (in_choices v mode_choices) eqn:Ec; [|discriminate].
    intros [= <-] [_ Hcfg]; cbn [mode config].
    split; [exists v; auto | exact Hcfg].
  - intros [= <-] [Hm _]; cbn [mode config].
    split; [exact Hm | discriminate].
Qed.

Lemma parsed_values_checked nn argv ns :
  parser_parse_args nn argv = Parsed ns ->
  existsb explicit_double_dash argv = false ->
  values_checked ns.
Proof.
  intros Hp Hx.
  pose proof (parsed_no_separator nn argv ns Hp) as Hs.
  revert Hp; unfold parser_parse_args.
  destruct (classify nn argv) as [err|cs] eqn:Ec; [discriminate |].
  intros Hc.
  apply (consume_invariant_values values_checked not_double_dash
           take_action_values_checked cs defaults [] ns
           (classify_values_ok nn argv cs Ec Hs Hx) Hc).
  split; [exists (lit "C"); split; reflexivity | discriminate].
Qed.

(** X13.  On a command line that hands no option the explicit value
    [--] (no argument whose text after its first [=] is [--]), the mode
    is checked before anything else happens.  When the parser returns a
    namespace, its mode is the name of one of the three split modes, so
    the lookup of line 48 finds it, and it is [C] unless an argument
    starts with [--m]; when the parser does not return one, the script
    ends without reading standard input and without a call into the
    tokenizer library, with success for the help only. *)
Theorem mode_checked_unless_explicit_double_dash pf lib argv stdin :
  existsb explicit_double_dash argv = false ->
  match parser_parse_args (negative_number_matcher pf) argv with
  | Parsed ns =>
      (exists sm, mode ns = Str (mode_name sm)
                  /\ getattr_SplitMode (mode ns) = inr sm)
      /\ (mode ns = Str (lit "C")
          \/ existsb (fun s => startswith s (lit "--m")) argv = true)
      /\ config ns <> Some EmptyList
  | ExitHelp | ExitError _ =>
      filter is_library_call (fst (script pf (inr lib) argv stdin)) = []
      /\ filter is_stdin_read (fst (script pf (inr lib) argv stdin)) = []
      /\ is_success (snd (script pf (inr lib) argv stdin))
         = is_help (parser_parse_args (negative_number_matcher pf) argv)
  end.
Proof.
  intros Hx.
  pose proof (script_not_parsed pf lib argv stdin) as H.
  destruct (parser_parse_args (negative_number_matcher pf) argv)
    as [ns| |e] eqn:E.
  - destruct (parsed_values_checked _ argv ns E Hx) as [(v & Hv & Hc) Hcfg].
    split; [| split; [| exact Hcfg]].
    + apply in_choices_mode in Hc; rewrite Hv.
      destruct Hc as [-> | [-> | ->]];
        [exists SplitMode.A | exists SplitMode.B | exists SplitMode.C];
        split; reflexivity.
    + destruct (existsb (fun s => startswith s (lit "--m")) argv) eqn:Em;
        [right; reflexivity | left].
      eapply parsed_default_mode; eauto.
  - rewrite H; destruct (truthy (format_help pf)); repeat split.
  - rewrite H; destruct (truthy (format_usage pf)); repeat split.
Qed.

Lemma mode_checked_unless_explicit_double_dash_witness :
  existsb explicit_double_dash [lit "--mode=D"] = false
  /\ filter is_library_call
       (fst (script example_platform (inr char_tokenizer) [lit "--mode=D"]
               tokyo)) = []
  /\ filter is_stdin_read
       (fst (script example_platform (inr char_tokenizer) [lit "--mode=D"]
               tokyo)) = [].
Proof.
  split; [reflexivity |].
  pose proof (mode_checked_unless_explicit_double_dash example_platform
                char_tokenizer [lit "--mode=D"] tokyo eq_refl) as H.
  assert (Hp : parser_parse_args (negative_number_matcher example_platform)
                 [lit "--mode=D"]
               = ExitError (InvalidChoice StoreMode (lit "D")))
    by reflexivity.
  rewrite Hp in H; destruct H as (Hc & Hr & _).
  split; [exact Hc | exact Hr].
Defined.


(** ** The explicit value [--] of [--config] *)


